(** * Azure SQL MCP server: connection lifecycle, tool registration and
      query screening

    A shallow embedding of [src/index.ts]: the process-wide session
    globals, [createSqlConfig], [ensureSqlConnection], the choice of the
    registered tools, the conversion of a tool's input schema and the
    tool handler with its [try]/[catch].  The embedding is followed by
    the properties of the design document that concern this code. *)

From Stdlib Require Import ZArith String Ascii List Bool Lia.
From stdpp Require Import base option list gmap strings.

Local Open Scope string_scope.
Local Open Scope list_scope.

(** ** JavaScript values used by the server *)

(** A [Date] object.  [new Date(t)] keeps the time value [t] when it lies
    within 8.64e15 ms of the epoch and is an Invalid Date otherwise. *)
Inductive Date : Type :=
| ValidDate (t : Z)
| InvalidDate.

Definition maxTimeValue : Z := 8640000000000000.

Definition timeValue (t : Z) : Prop := (- maxTimeValue <= t <= maxTimeValue)%Z.

Definition newDate (t : Z) : Date :=
  if (Z.abs t <=? maxTimeValue)%Z then ValidDate t else InvalidDate.

(** [a > b] on two dates compares their time values; a comparison with an
    Invalid Date (NaN) is false. *)
Definition Date_gt (a b : Date) : bool :=
  match a, b with
  | ValidDate x, ValidDate y => (y <? x)%Z
  | _, _ => false
  end.

(** Truthiness of a [string | null]: [null], [undefined] and the empty
    string are falsy. *)
Definition truthyString (s : option string) : bool :=
  match s with
  | Some EmptyString => false
  | Some _ => true
  | None => false
  end.

(** Truthiness of a [number | undefined]: [undefined] and [0] are falsy. *)
Definition truthyNumber (n : option Z) : bool :=
  match n with
  | Some n => negb (n =? 0)%Z
  | None => false
  end.

(** A number as far as the server computes with one: an integer-valued
    double, or an infinity. *)
Inductive Number : Type :=
| Finite (z : Z)
| Infinite (negative : bool).

(** The double nearest to an integer, ties to even: an integer below
    [2^53] in magnitude is a double; a larger one keeps 53 significant
    bits; one that rounds to [2^1024] or beyond is an infinity. *)
Definition roundToDouble (z : Z) : Number :=
  let m := Z.abs z in
  if (m <? 2 ^ 53)%Z then Finite z
  else
    let e := (Z.log2 m - 52)%Z in
    let q := (m / 2 ^ e)%Z in
    let r := (m mod 2 ^ e)%Z in
    let half := (2 ^ (e - 1))%Z in
    let q' := if (r <? half)%Z then q
              else if (half <? r)%Z then (q + 1)%Z
              else if Z.even q then q else (q + 1)%Z in
    if (2 ^ 1024 <=? q' * 2 ^ e)%Z then Infinite (z <? 0)%Z
    else Finite (Z.sgn z * (q' * 2 ^ e))%Z.

(** [a * b] on two integer-valued doubles: the exact product, rounded. *)
Definition Number_mul (a b : Z) : Number := roundToDouble (a * b).

(** A thrown value: an [Error] instance with its [name] and [message], or
    any other value, kept as its string conversion. *)
Inductive Thrown : Type :=
| ErrorObject (name message : string)
| NonError (text : string).

(** [`${error}`]: [Error.prototype.toString] for an [Error]. *)
Definition Thrown_toString (e : Thrown) : string :=
  match e with
  | ErrorObject name message =>
      if String.eqb name "" then message
      else if String.eqb message "" then name
      else (name ++ ": " ++ message)%string
  | NonError text => text
  end.

(** ** Configuration and the external collaborators *)

Record Config : Type := {
  serverName : string;
  databaseName : string;
  readOnly : bool;
  connectionTimeout : Z;
  trustServerCertificate : bool;
  useInteractiveBrowser : bool
}.

Inductive Credential : Type :=
| InteractiveBrowserCredential (redirectUri : string)
| DefaultAzureCredential.

(** What [credential.getToken] resolves to. *)
Record AccessToken : Type := {
  token : string;
  expiresOnTimestamp : option Z
}.

(** The [sql.config] object handed to the driver. *)
Record SqlConfig : Type := {
  server : string;
  database : string;
  encrypt : bool;
  options_trustServerCertificate : bool;
  authentication_type : string;
  authentication_token : option string;
  connectionTimeoutMs : Number
}.

(** The object returned by [createSqlConfig]. *)
Record SqlConfigResult : Type := {
  result_config : SqlConfig;
  result_token : option string;
  result_expiresOn : Date
}.

(** A request sent to the credential provider or to the database driver. *)
Inductive Event : Type :=
| EvGetToken (credential : Credential) (scope : string)
| EvClose (pool : nat)
| EvConnect (config : SqlConfig).

(** The process: the three module-level globals, the pool objects of the
    driver (a pool is its index; the entry is its [connected] flag) and
    the requests sent so far. *)
Record World : Type := {
  globalSqlPool : option nat;
  globalAccessToken : option string;
  globalTokenExpiresOn : option Date;
  pools : list bool;
  requests : list Event
}.

(** How the outside answers during one call: the clock when the validity
    check runs, the credential provider's answer ([None] is a [null]
    token object), the clock when [createSqlConfig] builds its result,
    and whether [close] and [connect] fail. *)
Record Env : Type := {
  nowAtCheck : Z;
  tokenReply : Thrown + option AccessToken;
  nowAtToken : Z;
  closeReply : option Thrown;
  connectReply : option Thrown
}.

(** ** A state and exception monad for the asynchronous code *)

Inductive Result (A : Type) : Type :=
| Returned (a : A)
| Threw (e : Thrown).
Arguments Returned {A} a.
Arguments Threw {A} e.

Definition M (A : Type) : Type := World -> Result A * World.

#[global] Instance M_ret : MRet M := fun A a w => (Returned a, w).

#[global] Instance M_bind : MBind M := fun A B f m w =>
  match m w with
  | (Returned a, w') => f a w'
  | (Threw e, w') => (Threw e, w')
  end.

Definition throw {A} (e : Thrown) : M A := fun w => (Threw e, w).

Definition getWorld : M World := fun w => (Returned w, w).

Definition tryCatch {A} (body : M A) (handler : Thrown -> M A) : M A :=
  fun w =>
    match body w with
    | (Returned a, w') => (Returned a, w')
    | (Threw e, w') => handler e w'
    end.

Definition send (ev : Event) : M unit := fun w =>
  (Returned tt,
   {| globalSqlPool := globalSqlPool w;
      globalAccessToken := globalAccessToken w;
      globalTokenExpiresOn := globalTokenExpiresOn w;
      pools := pools w;
      requests := requests w ++ [ev] |}).

Definition setAccessToken (t : option string) : M unit := fun w =>
  (Returned tt,
   {| globalSqlPool := globalSqlPool w;
      globalAccessToken := t;
      globalTokenExpiresOn := globalTokenExpiresOn w;
      pools := pools w;
      requests := requests w |}).

Definition setTokenExpiresOn (d : option Date) : M unit := fun w =>
  (Returned tt,
   {| globalSqlPool := globalSqlPool w;
      globalAccessToken := globalAccessToken w;
      globalTokenExpiresOn := d;
      pools := pools w;
      requests := requests w |}).

Definition setSqlPool (p : option nat) : M unit := fun w =>
  (Returned tt,
   {| globalSqlPool := p;
      globalAccessToken := globalAccessToken w;
      globalTokenExpiresOn := globalTokenExpiresOn w;
      pools := pools w;
      requests := requests w |}).

Definition setPools (ps : list bool) : M unit := fun w =>
  (Returned tt,
   {| globalSqlPool := globalSqlPool w;
      globalAccessToken := globalAccessToken w;
      globalTokenExpiresOn := globalTokenExpiresOn w;
      pools := ps;
      requests := requests w |}).

(** ** The driver and the credential provider *)

(** [pool.connected]. *)
Definition connected (w : World) (pool : nat) : bool :=
  match pools w !! pool with
  | Some c => c
  | None => false
  end.

(** The number of pools that report connected. *)
Definition connectedCount (ps : list bool) : nat :=
  length (filter (fun c => c = true) ps).

(** [await credential.getToken(scope)]. *)
Definition getToken (reply : Thrown + option AccessToken)
    (credential : Credential) (scope : string) : M (option AccessToken) :=
  send (EvGetToken credential scope);;
  match reply with
  | inl e => throw e
  | inr t => mret t
  end.

(** The effect of a [close] that succeeded: the pool is disconnected. *)
Definition closed (pool : nat) : M unit :=
  w ← getWorld; setPools (<[pool := false]> (pools w)).

(** The effect of a [connect] that succeeded and that the driver served
    with a pool of its own: a new pool object, connected.  That is every
    connect of a call that runs alone, where the driver holds no pool
    when [sql.connect] is reached (a fresh process, or the stored pool
    has just been closed).  A connect that overlaps the connect of
    another call is served from the driver's one global pool, see
    [stepWith]. *)
Definition opened : M nat :=
  w ← getWorld; setPools (pools w ++ [true]);; mret (length (pools w)).

(** [await pool.close()]. *)
Definition close (reply : option Thrown) (pool : nat) : M unit :=
  send (EvClose pool);;
  match reply with
  | Some e => throw e
  | None => closed pool
  end.

(** [await sql.connect(config)]. *)
Definition connect (reply : option Thrown) (config : SqlConfig) : M nat :=
  send (EvConnect config);;
  match reply with
  | Some e => throw e
  | None => opened
  end.

(** ** [createSqlConfig] and [ensureSqlConnection] *)

Definition credentialOf (config : Config) : Credential :=
  if useInteractiveBrowser config
  then InteractiveBrowserCredential "http://localhost"
  else DefaultAzureCredential.

Definition tokenScope : string := "https://database.windows.net/.default".

(** The object literal that [createSqlConfig] returns, for the token
    object it received and the clock at that moment. *)
Definition sqlConfigOf (config : Config) (accessToken : option AccessToken)
    (now : Z) : SqlConfigResult :=
  {| result_config := {|
       server := serverName config;
       database := databaseName config;
       encrypt := true;
       options_trustServerCertificate := trustServerCertificate config;
       authentication_type := "azure-active-directory-access-token";
       authentication_token := token <$> accessToken;
       connectionTimeoutMs := Number_mul (connectionTimeout config) 1000
     |};
     result_token := token <$> accessToken;
     result_expiresOn :=
       match accessToken ≫= expiresOnTimestamp with
       | Some timestamp =>
           if truthyNumber (Some timestamp) then newDate timestamp
           else newDate (now + 30 * 60 * 1000)%Z
       | None => newDate (now + 30 * 60 * 1000)%Z
       end
  |}.

Definition createSqlConfig (env : Env) (config : Config) : M SqlConfigResult :=
  accessToken ← getToken (tokenReply env) (credentialOf config) tokenScope;
  mret (sqlConfigOf config accessToken (nowAtToken env)).

(** The condition of the [if] that guards the early [return]. *)
Definition sessionUsable (w : World) (now : Z) : bool :=
  match globalSqlPool w with
  | Some pool =>
      connected w pool
      && truthyString (globalAccessToken w)
      && match globalTokenExpiresOn w with
         | Some expiresOn => Date_gt expiresOn (newDate (now + 2 * 60 * 1000)%Z)
         | None => false
         end
  | None => false
  end.

(** The condition of the [if] that guards [close]: the pool to close. *)
Definition poolToClose (w : World) : option nat :=
  match globalSqlPool w with
  | Some pool => if connected w pool then Some pool else None
  | None => None
  end.

Definition ensureSqlConnection (env : Env) (config : Config) : M unit :=
  w ← getWorld;
  if sessionUsable w (nowAtCheck env) then mret tt
  else
    sqlConfig ← createSqlConfig env config;
    setAccessToken (result_token sqlConfig);;
    setTokenExpiresOn (Some (result_expiresOn sqlConfig));;
    w ← getWorld;
    match poolToClose w with
    | Some pool => close (closeReply env) pool
    | None => mret tt
    end;;
    pool ← connect (connectReply env) (result_config sqlConfig);
    setSqlPool (Some pool).

(** ** The same function, one [await] at a time

    An [async] function runs without interruption from one [await] to
    the next; other callers can run only while it is suspended.  A
    [Frame] is a suspended call of [ensureSqlConnection]; [step] resumes
    it and runs it to its next [await]. *)

Inductive Frame : Type :=
| AtEntry
| AwaitGetToken
| AwaitCreateSqlConfig (promise : Result SqlConfigResult)
| AwaitClose (sqlConfig : SqlConfigResult) (pool : nat)
| AwaitConnect (sqlConfig : SqlConfigResult)
| Finished (outcome : Result unit).

(** The world after a piece of code that cannot throw. *)
Definition exec {A} (m : M A) (w : World) : World := snd (m w).

Definition step (env : Env) (config : Config) (f : Frame) (w : World)
    : Frame * World :=
  match f with
  | AtEntry =>
      if sessionUsable w (nowAtCheck env) then (Finished (Returned tt), w)
      else (AwaitGetToken, exec (send (EvGetToken (credentialOf config) tokenScope)) w)
  | AwaitGetToken =>
      match tokenReply env with
      | inl e => (AwaitCreateSqlConfig (Threw e), w)
      | inr accessToken =>
          (AwaitCreateSqlConfig
             (Returned (sqlConfigOf config accessToken (nowAtToken env))), w)
      end
  | AwaitCreateSqlConfig (Threw e) => (Finished (Threw e), w)
  | AwaitCreateSqlConfig (Returned sqlConfig) =>
      let w1 := exec (setAccessToken (result_token sqlConfig);;
                      setTokenExpiresOn (Some (result_expiresOn sqlConfig))) w in
      match poolToClose w1 with
      | Some pool => (AwaitClose sqlConfig pool, exec (send (EvClose pool)) w1)
      | None =>
          (AwaitConnect sqlConfig,
           exec (send (EvConnect (result_config sqlConfig))) w1)
      end
  | AwaitClose sqlConfig pool =>
      match closeReply env with
      | Some e => (Finished (Threw e), w)
      | None =>
          (AwaitConnect sqlConfig,
           exec (closed pool;; send (EvConnect (result_config sqlConfig))) w)
      end
  | AwaitConnect sqlConfig =>
      match connectReply env with
      | Some e => (Finished (Threw e), w)
      | None =>
          (Finished (Returned tt), exec (pool ← opened; setSqlPool (Some pool)) w)
      end
  | Finished outcome => (Finished outcome, w)
  end.

(** The worlds a lone call goes through: one per resumption it can
    need. *)
Fixpoint trace (env : Env) (config : Config) (n : nat) (f : Frame) (w : World)
    : list (Frame * World) :=
  match n with
  | O => []
  | S n =>
      let '(f', w') := step env config f w in
      (f', w') :: trace env config n f' w'
  end.

Definition callTrace (env : Env) (config : Config) (w : World)
    : list (Frame * World) :=
  trace env config 5 AtEntry w.

(** ** Two calls in flight

    The dispatch layer can start a second call while the first is
    suspended.  A schedule says which of the two is resumed next. *)

Inductive Caller : Type := First | Second.

(** The module-level connection of the driver: [sql.connect] keeps one
    global pool.  It creates the pool when it has none, hands the same
    pool to every connect made while it has one, and forgets it when the
    pool's [close] is called or its connect fails. *)
Inductive GlobalConnection : Type :=
| NoConnection
| Connecting
| Connected (pool : nat).

Record Two : Type := {
  first : Frame;
  second : Frame;
  shared : World;
  driver : GlobalConnection
}.

(** A resumption, given the driver's global pool.  A connect that
    succeeds while the driver's pool is already connected (the connect
    of the other call opened it) resolves to that pool, and no pool is
    created; everything else is [step]. *)
Definition stepWith (d : GlobalConnection) (env : Env) (config : Config)
    (f : Frame) (w : World) : Frame * World :=
  match f, connectReply env, d with
  | AwaitConnect _, None, Connected pool =>
      (Finished (Returned tt), exec (setSqlPool (Some pool)) w)
  | _, _, _ => step env config f w
  end.

(** The driver's global pool after a resumption that went from [f] to
    [f'] and left the world [w']: calling [close] makes the driver
    forget its pool; calling [connect] makes it create one when it has
    none; the pool it created is its connected pool once the connect
    succeeds, and is forgotten when the connect fails. *)
Definition driverAfter (d : GlobalConnection) (f f' : Frame) (w' : World)
    : GlobalConnection :=
  match f' with
  | AwaitClose _ _ => NoConnection
  | AwaitConnect _ =>
      match d with
      | NoConnection => Connecting
      | _ => d
      end
  | Finished (Returned _) =>
      match f, d with
      | AwaitConnect _, Connecting =>
          match globalSqlPool w' with
          | Some pool => Connected pool
          | None => NoConnection
          end
      | _, _ => d
      end
  | Finished (Threw _) =>
      match f, d with
      | AwaitConnect _, Connecting => NoConnection
      | _, _ => d
      end
  | _ => d
  end.

Definition frameOf (who : Caller) (s : Two) : Frame :=
  match who with
  | First => first s
  | Second => second s
  end.

Definition resume (envs : Caller -> Env) (config : Config) (who : Caller)
    (s : Two) : Two :=
  let '(f, w) := stepWith (driver s) (envs who) config (frameOf who s) (shared s) in
  let d := driverAfter (driver s) (frameOf who s) f w in
  match who with
  | First => {| first := f; second := second s; shared := w; driver := d |}
  | Second => {| first := first s; second := f; shared := w; driver := d |}
  end.


(** Two calls about to start on a world: the driver's global pool is
    the stored pool when that reports connected (the server's only way
    to a pool is [sql.connect], and it stores what it gets), and the
    driver has none otherwise. *)
Definition bothAtEntry (w : World) : Two :=
  {| first := AtEntry; second := AtEntry; shared := w;
     driver := match poolToClose w with
               | Some pool => Connected pool
               | None => NoConnection
               end |}.

(** The state after a whole schedule. *)
Fixpoint after (envs : Caller -> Env) (config : Config)
    (schedule : list Caller) (s : Two) : Two :=
  match schedule with
  | [] => s
  | who :: schedule => after envs config schedule (resume envs config who s)
  end.


(** ** The invariant of a lone call *)

(** Every pool that reports connected is the one stored in
    [globalSqlPool]. *)
Definition onlyGlobal (w : World) : Prop :=
  forall pool, connected w pool = true -> globalSqlPool w = Some pool.

Definition noneConnected (w : World) : Prop :=
  forall pool, connected w pool = false.

(** What holds of the world while a call is suspended in a frame. *)
Definition settled (f : Frame) (w : World) : Prop :=
  match f with
  | AwaitClose _ pool => onlyGlobal w /\ globalSqlPool w = Some pool
  | AwaitConnect _ => noneConnected w
  | _ => onlyGlobal w
  end.


(** ** Sample data *)

Definition sampleConfig : Config :=
  {| serverName := "my-server.database.windows.net";
     databaseName := "orders";
     readOnly := true;
     connectionTimeout := 30;
     trustServerCertificate := false;
     useInteractiveBrowser := false |}.

(** No session yet: the state of a fresh process. *)
Definition noSession : World :=
  {| globalSqlPool := None;
     globalAccessToken := None;
     globalTokenExpiresOn := None;
     pools := [];
     requests := [] |}.

(** A session whose pool is connected and whose token expires at
    [expiresOn]. *)
Definition sessionUntil (expiresOn : Z) : World :=
  {| globalSqlPool := Some 0%nat;
     globalAccessToken := Some "old-token";
     globalTokenExpiresOn := Some (ValidDate expiresOn);
     pools := [true];
     requests := [] |}.

(** The outside at time [now]: the provider answers with [reply], and
    [close] and [connect] fail as given. *)
Definition envAt (now : Z) (reply : Thrown + option AccessToken)
    (closeFails connectFails : option Thrown) : Env :=
  {| nowAtCheck := now;
     tokenReply := reply;
     nowAtToken := now;
     closeReply := closeFails;
     connectReply := connectFails |}.

Definition freshToken (timestamp : option Z) : Thrown + option AccessToken :=
  inr (Some {| token := "new-token"; expiresOnTimestamp := timestamp |}).

Definition connectionRefused : Thrown :=
  ErrorObject "ConnectionError" "Failed to connect".

Definition alternating : list Caller :=
  [First; Second; First; Second; First; Second; First; Second].



(** 14 November 2023, 22:13:20 UTC, in milliseconds since the epoch. *)
Definition sampleNow : Z := 1700000000000.

(** A session that expired an hour before [sampleNow]. *)
Definition staleSession : World := sessionUntil (sampleNow - 3600000).

(** A session that expires an hour after [sampleNow]. *)
Definition liveSession : World := sessionUntil (sampleNow + 3600000).

(** Everything succeeds; the token expires in an hour. *)
Definition allGood : Env :=
  envAt sampleNow (freshToken (Some (sampleNow + 3600000)%Z)) None None.

(** The token is acquired and the new pool cannot be opened. *)
Definition connectFails : Env :=
  envAt sampleNow (freshToken (Some (sampleNow + 3600000)%Z)) None
    (Some connectionRefused).

(** The provider cannot issue a token. *)
Definition tokenFails : Env :=
  envAt sampleNow (inl (ErrorObject "CredentialUnavailableError" "no credential"))
    None None.

(** The provider answers with the timestamp zero. *)
Definition zeroTimestamp : Env := envAt sampleNow (freshToken (Some 0%Z)) None None.

(** ** Tools and their registration *)

(** One entry of [inputSchema.properties]. *)
Record Property : Type := {
  type : option string;
  property_description : option string
}.

(** A tool object, as the server reads it.  [run] is answered by the
    outside, see [HandlerEnv]. *)
Record Tool : Type := {
  name : string;
  description : string;
  inputSchema_properties : option (gmap string Property)
}.

(** The two Zod schemas the server builds. *)
Inductive Zod : Type :=
| z_string (describe : string)
| z_object (describe : string).

(** [value.description || ''] *)
Definition descriptionOrEmpty (d : option string) : string :=
  if truthyString d then default "" d else "".

(** The body of the inner [forEach]: what one property adds to
    [zodSchema]. *)
Definition addProperty (zodSchema : gmap string Zod) (entry : string * Property)
    : gmap string Zod :=
  let '(key, value) := entry in
  if decide (type value = Some "string") then
    <[key := z_string (descriptionOrEmpty (property_description value))]> zodSchema
  else if decide (type value = Some "object") then
    <[key := z_object (descriptionOrEmpty (property_description value))]> zodSchema
  else zodSchema.

(** [Object.entries]. *)
Definition Object_entries {V} (o : gmap string V) : list (string * V) :=
  map_to_list o.

(** What the two branches of the [if] make of a property, and [None]
    when neither applies; used to state what [zodSchemaOf] carries. *)
Definition carried (value : Property) : option Zod :=
  match type value with
  | Some "string" => Some (z_string (descriptionOrEmpty (property_description value)))
  | Some "object" => Some (z_object (descriptionOrEmpty (property_description value)))
  | _ => None
  end.

Definition zodSchemaOf (tool : Tool) : gmap string Zod :=
  match inputSchema_properties tool with
  | Some properties => foldl addProperty ∅ (Object_entries properties)
  | None => ∅
  end.

(** What [server.tool(name, description, zodSchema, handler)] records;
    the handler is [handler] below, applied to the tool. *)
Record Registered : Type := {
  registered_name : string;
  registered_description : string;
  registered_schema : gmap string Zod;
  registered_tool : Tool
}.

Definition register (tool : Tool) : Registered :=
  {| registered_name := name tool;
     registered_description := description tool;
     registered_schema := zodSchemaOf tool;
     registered_tool := tool |}.

(** The eight tool objects the module creates from [./tools/*.js]. *)
Record Toolbox : Type := {
  updateDataTool : Tool;
  insertDataTool : Tool;
  readDataTool : Tool;
  createTableTool : Tool;
  createIndexTool : Tool;
  listTableTool : Tool;
  dropTableTool : Tool;
  describeTableTool : Tool
}.

Definition tools (t : Toolbox) (config : Config) : list Tool :=
  if readOnly config
  then [listTableTool t; readDataTool t; describeTableTool t]
  else [insertDataTool t; readDataTool t; describeTableTool t; updateDataTool t;
        createTableTool t; createIndexTool t; dropTableTool t; listTableTool t].

(** The tools registered on the server returned for [config]. *)
Definition registry (t : Toolbox) (config : Config) : list Registered :=
  register <$> tools t config.

Definition exposedNames (t : Toolbox) (config : Config) : list string :=
  registered_name <$> registry t config.

(** The dispatch by name: the registration a request for [n] reaches. *)
Definition reachable (t : Toolbox) (config : Config) (n : string)
    : option Registered :=
  find (fun r => String.eqb (registered_name r) n) (registry t config).

(** The write-oriented tools. *)
Definition writeTools (t : Toolbox) : list Tool :=
  [insertDataTool t; updateDataTool t; createTableTool t; createIndexTool t;
   dropTableTool t].

Definition allTools (t : Toolbox) : list Tool :=
  [updateDataTool t; insertDataTool t; readDataTool t; createTableTool t;
   createIndexTool t; listTableTool t; dropTableTool t; describeTableTool t].

(** ** The tool handler *)

Section Handler.

(** The value a tool's [run] resolves to, and [JSON.stringify(_, null, 2)]
    on such a value, which can throw, and on an object literal of
    booleans and strings, which cannot. *)
Context {RunValue : Type}.
Context (JSON_stringify : RunValue -> Thrown + string).
Context (JSON_stringify_literal : list (string * (bool + string)) -> string).

Record ToolResponse : Type := {
  content_type : string;
  content_text : string;
  isError : option bool
}.

(** How the outside answers during one invocation. *)
Record HandlerEnv : Type := {
  connection : Env;
  runReply : Thrown + RunValue
}.

(** [await tool.run(args)]. *)
Definition run (reply : Thrown + RunValue) : M RunValue :=
  match reply with
  | inl e => throw e
  | inr result => mret result
  end.

Definition stringify (result : RunValue) : M string :=
  match JSON_stringify result with
  | inl e => throw e
  | inr text => mret text
  end.

(** The object literal of the [catch] block. *)
Definition failureBody (error : Thrown) : list (string * (bool + string)) :=
  [("success", inl false);
   ("message", inr ("Error occurred: " ++ Thrown_toString error)%string);
   ("error", inr match error with
                 | ErrorObject _ message => message
                 | NonError _ => "Unknown error"
                 end)].

Definition failureResponse (error : Thrown) : ToolResponse :=
  {| content_type := "text";
     content_text := JSON_stringify_literal (failureBody error);
     isError := Some true |}.

Definition handler (env : HandlerEnv) (config : Config) : M ToolResponse :=
  tryCatch
    (ensureSqlConnection (connection env) config;;
     result ← run (runReply env);
     text ← stringify result;
     mret {| content_type := "text"; content_text := text; isError := None |})
    (fun error => mret (failureResponse error)).

End Handler.

(** Sample tools, with the names the server's README lists. *)
Definition sampleTool (n : string) (properties : option (gmap string Property))
    : Tool :=
  {| name := n; description := ""; inputSchema_properties := properties |}.

Definition sampleProperties : gmap string Property :=
  {[ "query" := {| type := Some "string";
                   property_description := Some "SQL SELECT query" |};
     "data" := {| type := Some "object"; property_description := None |};
     "limit" := {| type := Some "number";
                   property_description := Some "Maximum number of rows" |};
     "columns" := {| type := Some "array"; property_description := None |} ]}.

Definition sampleTools : Toolbox :=
  {| updateDataTool := sampleTool "update_data" None;
     insertDataTool := sampleTool "insert_data" None;
     readDataTool := sampleTool "read_data" (Some sampleProperties);
     createTableTool := sampleTool "create_table" None;
     createIndexTool := sampleTool "create_index" None;
     listTableTool := sampleTool "list_tables" None;
     dropTableTool := sampleTool "drop_table" None;
     describeTableTool := sampleTool "describe_table" None |}.

(** ** Calls one after the other, and what a call sends *)

(** The world after a sequence of calls, each started once the one
    before has ended; [envs] says how the outside answers each. *)
Fixpoint calls (envs : list Env) (config : Config) (w : World) : World :=
  match envs with
  | [] => w
  | env :: envs => calls envs config (snd (ensureSqlConnection env config w))
  end.


(** ** The configuration schema *)

(** A configuration as supplied, before [configSchema] is applied: a
    field is [None] when it is absent. *)
Record RawConfig : Type := {
  raw_serverName : option string;
  raw_databaseName : option string;
  raw_readOnly : option bool;
  raw_connectionTimeout : option Z;
  raw_trustServerCertificate : option bool;
  raw_useInteractiveBrowser : option bool
}.

(** [configSchema.parse]: the two strings are required, the other four
    fields have the defaults of their [.default(...)]. *)
Definition configSchema (raw : RawConfig) : option Config :=
  server ← raw_serverName raw;
  database ← raw_databaseName raw;
  Some {| serverName := server;
          databaseName := database;
          readOnly := default false (raw_readOnly raw);
          connectionTimeout := default 30%Z (raw_connectionTimeout raw);
          trustServerCertificate := default false (raw_trustServerCertificate raw);
          useInteractiveBrowser := default true (raw_useInteractiveBrowser raw) |}.

(** Only the two required fields are supplied. *)
Definition minimal (server database : string) : RawConfig :=
  {| raw_serverName := Some server;
     raw_databaseName := Some database;
     raw_readOnly := None;
     raw_connectionTimeout := None;
     raw_trustServerCertificate := None;
     raw_useInteractiveBrowser := None |}.

(** More sample data: a full-access configuration, an outside that
    fails to close the old pool, and providers that answer with no token
    object and with an empty token. *)
Definition fullAccessConfig : Config :=
  {| serverName := "my-server.database.windows.net";
     databaseName := "orders";
     readOnly := false;
     connectionTimeout := 30;
     trustServerCertificate := false;
     useInteractiveBrowser := true |}.

Definition closeFails : Env :=
  envAt sampleNow (freshToken (Some (sampleNow + 3600000)%Z))
    (Some (ErrorObject "ConnectionError" "Cannot close")) None.

Definition nullToken : Env := envAt sampleNow (inr None) None None.

Definition emptyToken : Env :=
  envAt sampleNow
    (inr (Some {| token := ""; expiresOnTimestamp := Some (sampleNow + 3600000)%Z |}))
    None None.

(** The session the server installs when the provider answers with an
    empty token and the connect succeeds: a pool, connected, an empty
    token and an expiry an hour after [sampleNow]. *)
Definition emptyTokenSession : World :=
  snd (ensureSqlConnection emptyToken sampleConfig noSession).

(** A minute after [allGood]. *)
Definition soonAfter : Env :=
  envAt (sampleNow + 60000) (freshToken (Some (sampleNow + 7200000)%Z)) None None.

(** ** The query safety validator

    The validator belongs to the read tool ([./tools/ReadDataTool.js]),
    which [index.ts] only imports.  It is modelled from section 4.2 of
    the design document, one definition per step of the policy. *)

Module Validator.

Local Open Scope char_scope.
Local Open Scope list_scope.

(** Modelled from the spec: the operating mode passed to [validate]. *)
Inductive Mode : Type := ReadOnlyMode | FullAccessMode.

(** Modelled from the spec: the reasons of a rejection, one per step of
    the policy (section 7, ValidationRejected). *)
Inductive Reason : Type :=
| EmptyFragment
| MultiStatement
| DenylistedKeyword
| DisallowedComment
| NonSelectPrefix.

(** Modelled from the spec: the result of [validate],
    [Accept | Reject(reason)]. *)
Inductive Verdict : Type :=
| Accept
| Reject (reason : Reason).

Definition between (lo hi : nat) (c : ascii) : bool :=
  (lo <=? nat_of_ascii c)%nat && (nat_of_ascii c <=? hi)%nat.

(** Modelled from the spec: whitespace, taken as space, tab, line feed,
    vertical tab, form feed and carriage return. *)
Definition isSpace (c : ascii) : bool :=
  Ascii.eqb c " " || between 9 13 c.

(** Modelled from the spec: a character of a word, taken as a letter, a
    digit or the underscore, so that [updates_log] is one word. *)
Definition isWordChar (c : ascii) : bool :=
  between 48 57 c || between 65 90 c || between 97 122 c || Ascii.eqb c "_".

(** Modelled from the spec: the case folding of the case-insensitive
    comparisons. *)
Definition toUpper (c : ascii) : ascii :=
  if between 97 122 c then ascii_of_nat (nat_of_ascii c - 32) else c.

Definition upper (w : list ascii) : list ascii := toUpper <$> w.

(** Modelled from the spec: the fixed denylist of step 3 of the policy
    of the validator of the read tool. *)
Definition denylist : list (list ascii) :=
  list_ascii_of_string <$>
    ["INSERT"; "UPDATE"; "DELETE"; "DROP"; "ALTER"; "CREATE"; "TRUNCATE";
     "EXEC"; "EXECUTE"; "MERGE"; "GRANT"; "REVOKE"; "BACKUP";
     "RESTORE"]%string.

(** Modelled from the spec: step 1 of the validator of the read tool,
    the fragment is empty after trimming whitespace. *)
Definition blank (s : list ascii) : bool := forallb isSpace s.

(** Modelled from the spec: step 2 of the validator of the read tool,
    a [;] followed by further non-whitespace content. *)
Fixpoint multiStatement (s : list ascii) : bool :=
  match s with
  | [] => false
  | c :: rest =>
      (Ascii.eqb c ";" && negb (forallb isSpace rest)) || multiStatement rest
  end.

(** Modelled from the spec: the tokenization on word boundaries that
    step 3 of the validator of the read tool asks for.  The words of
    a fragment are its maximal runs of word characters; the first
    word of the result is the one the fragment starts with (empty
    when it starts with a separator). *)
Fixpoint words (s : list ascii) : list (list ascii) :=
  match s with
  | [] => [[]]
  | c :: rest =>
      if isWordChar c then
        match words rest with
        | w :: ws => (c :: w) :: ws
        | [] => [[c]]
        end
      else [] :: words rest
  end.

(** Modelled from the spec: a word is, without regard to case, on the
    denylist. *)
Definition denylisted (w : list ascii) : bool :=
  bool_decide (upper w ∈ denylist).

(** Modelled from the spec: step 3 of the validator of the read tool,
    some word of the fragment is, without regard to case, on the
    denylist. *)
Definition containsDenylisted (s : list ascii) : bool :=
  existsb denylisted (words s).

(** Modelled from the spec: the comment-opening sequences [--] and
    [/*] of step 4. *)
Definition commentOpening (c1 c2 : ascii) : bool :=
  (Ascii.eqb c1 "-" && Ascii.eqb c2 "-") || (Ascii.eqb c1 "/" && Ascii.eqb c2 "*").

(** Modelled from the spec: step 4 of the validator of the read tool,
    a [--] or [/*] that is not immediately followed by the end of the
    input. *)
Fixpoint disallowedComment (s : list ascii) : bool :=
  match s with
  | [] => false
  | c1 :: rest =>
      match rest with
      | c2 :: after =>
          (commentOpening c1 c2 && negb (bool_decide (after = [])))
          || disallowedComment rest
      | [] => false
      end
  end.

(** Modelled from the spec: the text after a leading line comment, that
    is after the end of the line. *)
Fixpoint afterLine (s : list ascii) : list ascii :=
  match s with
  | [] => []
  | c :: rest => if Ascii.eqb c "010" then rest else afterLine rest
  end.

(** Modelled from the spec: the text after a leading block comment, that
    is after the next [*/]. *)
Fixpoint afterBlock (s : list ascii) : list ascii :=
  match s with
  | [] => []
  | c1 :: rest =>
      match rest with
      | c2 :: after =>
          if Ascii.eqb c1 "*" && Ascii.eqb c2 "/" then after else afterBlock rest
      | [] => []
      end
  end.

(** Modelled from the spec: the stripping of leading whitespace and
    comments of step 5 of the validator of the read tool.  The fuel
    bounds the number of characters and comments removed. *)
Fixpoint stripLeading (fuel : nat) (s : list ascii) : list ascii :=
  match fuel with
  | O => s
  | S fuel =>
      match s with
      | c1 :: rest =>
          if isSpace c1 then stripLeading fuel rest
          else
            match rest with
            | c2 :: after =>
                if Ascii.eqb c1 "-" && Ascii.eqb c2 "-"
                then stripLeading fuel (afterLine after)
                else if Ascii.eqb c1 "/" && Ascii.eqb c2 "*"
                then stripLeading fuel (afterBlock after)
                else s
            | [] => s
            end
      | [] => []
      end
  end.

(** Modelled from the spec: step 5 of the validator of the read tool,
    the stripped fragment begins with the keyword [SELECT] or
    [WITH]. *)
Definition selectPrefix (s : list ascii) : bool :=
  match words (stripLeading (length s) s) with
  | w :: _ =>
      bool_decide (upper w = list_ascii_of_string "SELECT")
      || bool_decide (upper w = list_ascii_of_string "WITH")
  | [] => false
  end.

(** Modelled from the spec: [validate(sqlText, mode)] of the read
    tool, the ordered policy of section 4.2, first match wins.  The
    write-oriented operations do not pass through it, and none of its
    steps looks at the mode. *)
Definition validate (sqlText : string) (mode : Mode) : Verdict :=
  let s := list_ascii_of_string sqlText in
  if blank s then Reject EmptyFragment
  else if multiStatement s then Reject MultiStatement
  else if containsDenylisted s then Reject DenylistedKeyword
  else if disallowedComment s then Reject DisallowedComment
  else if negb (selectPrefix s) then Reject NonSelectPrefix
  else Accept.

(** The wording of steps 2 and 3, for comparison with the
    definitions above. *)

(** The text ends at a word boundary: it is empty or its last
    character is not a word character. *)
Definition endsAtBoundary (before : list ascii) : Prop :=
  before = [] \/ exists b c, before = b ++ [c] /\ isWordChar c = false.

(** The text starts at a word boundary. *)
Definition startsAtBoundary (after : list ascii) : Prop :=
  after = [] \/ exists c a, after = c :: a /\ isWordChar c = false.

(** [w] occurs in [s] as a whole word. *)
Definition wholeWord (w s : list ascii) : Prop :=
  exists before after,
    s = before ++ w ++ after /\ endsAtBoundary before /\ startsAtBoundary after.

(** The fragment contains a denylisted keyword, in any case, as a
    whole word. *)
Definition hasDenylistedWord (s : list ascii) : Prop :=
  exists w, upper w ∈ denylist /\ wholeWord w s.

(** The fragment contains a [;] followed by non-whitespace content. *)
Definition hasContentAfterSeparator (s : list ascii) : Prop :=
  exists before after c,
    s = before ++ ";" :: after /\ c ∈ after /\ isSpace c = false.

End Validator.

(** * Properties of the connection lifecycle *)

(** ** Dates *)

Lemma newDate_timeValue (t : Z) : timeValue t -> newDate t = ValidDate t.
Proof.
  unfold timeValue, newDate. intros Ht.
  destruct (Z.leb_spec (Z.abs t) maxTimeValue) as [_ | Hout]; [reflexivity | lia].
Qed.

Lemma Date_gt_valid (a b : Z) :
  timeValue b -> Date_gt (ValidDate a) (newDate b) = true <-> (b < a)%Z.
Proof.
  intros Hb. rewrite (newDate_timeValue _ Hb). simpl. apply Z.ltb_lt.
Qed.

(** Evaluation of monadic code on a world given by its fields. *)
Ltac run_M :=
  repeat progress
    (cbn -[sessionUsable sqlConfigOf credentialOf tokenScope lookup insert];
     unfold mbind, M_bind, mret, M_ret, getWorld, throw, exec, poolToClose,
       connected, tryCatch).

(** ** The two models of [ensureSqlConnection] agree

    Resuming a lone call five times brings it to its end, with the
    outcome and the world of [ensureSqlConnection]. *)
Lemma callTrace_ensureSqlConnection (env : Env) (config : Config) (w : World) :
  last (callTrace env config w)
  = Some (Finished (fst (ensureSqlConnection env config w)),
          snd (ensureSqlConnection env config w)).
Proof.
  destruct w as [gp gt ge ps rq], env as [n1 tr n2 cr kr].
  unfold callTrace, ensureSqlConnection, createSqlConfig, getToken, close,
    connect, closed, opened.
  run_M.
  destruct (sessionUsable _ n1); [reflexivity |].
  destruct tr as [e | accessToken]; [reflexivity |].
  run_M.
  destruct gp as [pool |]; [destruct (ps !! pool) as [[] |] |];
    destruct cr, kr; reflexivity.
Qed.

(** ** The fast path *)

(** C2, as the code has it.  When a session exists whose token is not
    empty (a pool handle, a non-empty token and an expiry date are
    stored), its pool reports connected and its expiry instant is more
    than two minutes after the current time, [ensureSqlConnection]
    returns at once: it returns normally without reaching any [await],
    sends no request to the credential provider or to the driver, and
    leaves the whole state as it was. *)
Theorem ensureSqlConnection_fast_path
    (env : Env) (config : Config) (w : World) (pool : nat) (expiresOn : Z) :
  globalSqlPool w = Some pool ->
  connected w pool = true ->
  truthyString (globalAccessToken w) = true ->
  globalTokenExpiresOn w = Some (ValidDate expiresOn) ->
  timeValue (nowAtCheck env) ->
  timeValue expiresOn ->
  (nowAtCheck env + 2 * 60 * 1000 < expiresOn)%Z ->
  ensureSqlConnection env config w = (Returned tt, w)
  /\ step env config AtEntry w = (Finished (Returned tt), w)
  /\ requests (snd (ensureSqlConnection env config w)) = requests w.
Proof.
  intros Hpool Hconn Htok Hexp Hnow Hvalid Hlater.
  assert (Huse : sessionUsable w (nowAtCheck env) = true).
  { unfold sessionUsable. rewrite Hpool, Hconn, Htok, Hexp. cbn [andb].
    apply Date_gt_valid; [| exact Hlater].
    unfold timeValue in *. unfold maxTimeValue in *. lia. }
  assert (Hrun : ensureSqlConnection env config w = (Returned tt, w)).
  { unfold ensureSqlConnection, mbind, M_bind, getWorld. rewrite Huse. reflexivity. }
  split; [exact Hrun |]. split.
  - cbn [step]. rewrite Huse. reflexivity.
  - rewrite Hrun. reflexivity.
Qed.

(** ** The expiry of a fresh token *)

(** The expiry [createSqlConfig] computes for a token object. *)
Lemma result_expiresOn_cases (config : Config) (accessToken : option AccessToken)
    (now : Z) :
  result_expiresOn (sqlConfigOf config accessToken now)
  = match accessToken ≫= expiresOnTimestamp with
    | Some timestamp =>
        if (timestamp =? 0)%Z then newDate (now + 1800000)%Z
        else newDate timestamp
    | None => newDate (now + 1800000)%Z
    end.
Proof.
  unfold sqlConfigOf. cbn [result_expiresOn].
  destruct (accessToken ≫= expiresOnTimestamp) as [timestamp |]; [| reflexivity].
  cbn [truthyNumber]. destruct (timestamp =? 0)%Z; reflexivity.
Qed.

(** What a refresh that reaches the assignments stores. *)
Lemma ensureSqlConnection_refresh_stores
    (env : Env) (config : Config) (w : World) (accessToken : option AccessToken) :
  sessionUsable w (nowAtCheck env) = false ->
  tokenReply env = inr accessToken ->
  let sqlConfig := sqlConfigOf config accessToken (nowAtToken env) in
  let w' := snd (ensureSqlConnection env config w) in
  globalAccessToken w' = result_token sqlConfig
  /\ globalTokenExpiresOn w' = Some (result_expiresOn sqlConfig).
Proof.
  destruct w as [gp gt ge ps rq], env as [n1 tr n2 cr kr].
  cbn [nowAtCheck tokenReply nowAtToken]. intros Huse ->.
  unfold ensureSqlConnection, createSqlConfig, getToken, close, connect,
    closed, opened.
  run_M. rewrite Huse. run_M.
  destruct gp as [pool |]; [destruct (ps !! pool) as [[] |] |];
    destruct cr, kr; split; reflexivity.
Qed.

(** C9, as the code has it.  A refresh that succeeds installs as the
    session's expiry: the current time plus 30 minutes when the provider
    gave no token object or a token without an expiry timestamp; the
    provider's timestamp when it gave one that is not zero; and, the
    timestamp [0] being falsy, the current time plus 30 minutes again
    when the timestamp is zero. *)
Theorem ensureSqlConnection_installs_expiry
    (env : Env) (config : Config) (w : World) (accessToken : option AccessToken) :
  sessionUsable w (nowAtCheck env) = false ->
  tokenReply env = inr accessToken ->
  fst (ensureSqlConnection env config w) = Returned tt ->
  globalTokenExpiresOn (snd (ensureSqlConnection env config w))
  = Some (match accessToken ≫= expiresOnTimestamp with
          | None => newDate (nowAtToken env + 30 * 60 * 1000)%Z
          | Some 0%Z => newDate (nowAtToken env + 30 * 60 * 1000)%Z
          | Some timestamp => newDate timestamp
          end).
Proof.
  intros Huse Hreply _.
  destruct (ensureSqlConnection_refresh_stores env config w accessToken Huse Hreply)
    as [_ ->].
  rewrite result_expiresOn_cases.
  destruct (accessToken ≫= expiresOnTimestamp) as [[| p | p] |]; reflexivity.
Qed.

(** ** Counting connected pools *)

Lemma connected_lookup (w : World) (pool : nat) :
  connected w pool = true <-> pools w !! pool = Some true.
Proof.
  unfold connected. destruct (pools w !! pool) as [[] |]; split; congruence.
Qed.

Lemma connectedCount_cons (c : bool) (ps : list bool) :
  connectedCount (c :: ps) = ((if c then 1 else 0) + connectedCount ps)%nat.
Proof.
  unfold connectedCount. rewrite filter_cons.
  destruct c; case_decide; try congruence; reflexivity.
Qed.

Lemma connectedCount_none (ps : list bool) :
  (forall i, ps !! i <> Some true) -> connectedCount ps = 0%nat.
Proof.
  induction ps as [| c ps IH]; intros Hnone; [reflexivity |].
  rewrite connectedCount_cons.
  destruct c; [exfalso; exact (Hnone 0%nat eq_refl) |].
  rewrite IH; [reflexivity |]. intros i. exact (Hnone (S i)).
Qed.

Lemma connectedCount_at_most_one (ps : list bool) :
  (forall i j, ps !! i = Some true -> ps !! j = Some true -> i = j) ->
  (connectedCount ps <= 1)%nat.
Proof.
  induction ps as [| c ps IH]; intros Hone; [cbn; lia |].
  rewrite connectedCount_cons. destruct c.
  - rewrite connectedCount_none; [lia |].
    intros i Hi. specialize (Hone 0%nat (S i) eq_refl Hi). discriminate.
  - cbn [Nat.add]. apply IH. intros i j Hi Hj.
    specialize (Hone (S i) (S j) Hi Hj). congruence.
Qed.

(** ** The invariant of a lone call *)

Lemma onlyGlobal_count (w : World) :
  onlyGlobal w -> (connectedCount (pools w) <= 1)%nat.
Proof.
  intros Hw. apply connectedCount_at_most_one. intros i j Hi Hj.
  apply connected_lookup in Hi, Hj. apply Hw in Hi, Hj. congruence.
Qed.

Lemma noneConnected_count (w : World) :
  noneConnected w -> connectedCount (pools w) = 0%nat.
Proof.
  intros Hw. apply connectedCount_none. intros i Hi.
  apply connected_lookup in Hi. rewrite Hw in Hi. discriminate.
Qed.

Lemma noneConnected_onlyGlobal (w : World) : noneConnected w -> onlyGlobal w.
Proof. intros Hw pool Hc. rewrite Hw in Hc. discriminate. Qed.

Lemma settled_count (f : Frame) (w : World) :
  settled f w -> (connectedCount (pools w) <= 1)%nat.
Proof.
  destruct f; cbn [settled]; intros H;
    try (apply onlyGlobal_count; tauto).
  rewrite noneConnected_count; [lia | exact H].
Qed.

Lemma poolToClose_Some (w : World) (pool : nat) :
  poolToClose w = Some pool <->
  globalSqlPool w = Some pool /\ connected w pool = true.
Proof.
  unfold poolToClose. destruct (globalSqlPool w) as [p |].
  - destruct (connected w p) eqn:Hc; split.
    + intros [= ->]. tauto.
    + intros [[= ->] _]. reflexivity.
    + discriminate.
    + intros [[= ->] Hc']. congruence.
  - split; [discriminate | intros [? _]; discriminate].
Qed.

Lemma poolToClose_None (w : World) :
  onlyGlobal w -> poolToClose w = None -> noneConnected w.
Proof.
  intros Hw Hnone pool. destruct (connected w pool) eqn:Hc; [| reflexivity].
  assert (Hsome : poolToClose w = Some pool)
    by (apply poolToClose_Some; split; [apply Hw |]; exact Hc).
  congruence.
Qed.

(** A resumption keeps the invariant. *)
Lemma step_settled (env : Env) (config : Config) (f : Frame) (w : World) :
  settled f w ->
  settled (fst (step env config f w)) (snd (step env config f w)).
Proof.
  destruct f as [| | [sqlConfig | e] | sqlConfig pool | sqlConfig | outcome];
    cbn [step settled]; intros Hw.
  - destruct (sessionUsable w (nowAtCheck env)); exact Hw.
  - destruct (tokenReply env); exact Hw.
  - match goal with |- context [poolToClose ?w1] =>
      assert (Hw1 : onlyGlobal w1) by exact Hw;
      destruct (poolToClose w1) as [pool |] eqn:Hclose
    end.
    + apply poolToClose_Some in Hclose as [Hglobal _].
      split; [exact Hw1 | exact Hglobal].
    + exact (poolToClose_None _ Hw1 Hclose).
  - exact Hw.
  - destruct Hw as [Hw Hglobal]. destruct (closeReply env); [exact Hw |].
    intros q. cbn [fst snd settled]. unfold connected, closed, exec. run_M.
    destruct (decide (q = pool)) as [-> | Hne].
    + destruct (decide (pool < length (pools w))%nat) as [Hlt | Hge].
      * rewrite list_lookup_insert_eq by exact Hlt. reflexivity.
      * rewrite list_insert_ge by lia.
        rewrite lookup_ge_None_2 by lia. reflexivity.
    + rewrite list_lookup_insert_ne by congruence.
      destruct (pools w !! q) as [[] |] eqn:Hq; try reflexivity.
      apply connected_lookup, Hw in Hq. congruence.
  - destruct (connectReply env); [exact (noneConnected_onlyGlobal _ Hw) |].
    intros q. cbn [fst snd settled]. unfold connected, opened, exec. run_M.
    intros Hq. destruct (decide (q < length (pools w))%nat) as [Hlt | Hge].
    + rewrite lookup_app_l in Hq by exact Hlt.
      specialize (Hw q). unfold connected in Hw.
      destruct (pools w !! q) as [[] |]; congruence.
    + destruct (decide (q = length (pools w))) as [-> | Hne]; [reflexivity |].
      rewrite lookup_ge_None_2 in Hq by (rewrite length_app; cbn; lia).
      discriminate.
  - exact Hw.
Qed.

Lemma trace_settled (env : Env) (config : Config) (n : nat) (f : Frame) (w : World) :
  settled f w ->
  Forall (fun fw => settled (fst fw) (snd fw)) (trace env config n f w).
Proof.
  revert f w. induction n as [| n IH]; intros f w Hw; cbn [trace]; [constructor |].
  pose proof (step_settled env config f w Hw) as Hstep.
  destruct (step env config f w) as [f' w']. constructor; [exact Hstep |].
  apply IH. exact Hstep.
Qed.

(** The requests of a refresh that has a pool to close are sent in the
    order token, close, connect. *)
Lemma ensureSqlConnection_requests (env : Env) (config : Config) (w : World)
    (pool : nat) :
  sessionUsable w (nowAtCheck env) = false ->
  poolToClose w = Some pool ->
  exists evs sqlConfig,
    requests (snd (ensureSqlConnection env config w)) = requests w ++ evs
    /\ evs `prefix_of` [EvGetToken (credentialOf config) tokenScope;
                        EvClose pool; EvConnect sqlConfig].
Proof.
  destruct w as [gp gt ge ps rq], env as [n1 tr n2 cr kr].
  cbn [nowAtCheck]. intros Huse Hclose.
  unfold ensureSqlConnection, createSqlConfig, getToken, close, connect,
    closed, opened.
  run_M. rewrite Huse.
  destruct tr as [e | accessToken]; run_M.
  - exists [EvGetToken (credentialOf config) tokenScope],
      (result_config (sqlConfigOf config None 0)).
    split; [reflexivity |]. eexists; reflexivity.
  - unfold poolToClose, connected in Hclose. cbn in Hclose.
    destruct gp as [p |]; [| discriminate].
    destruct (ps !! p) as [[] |]; try discriminate.
    injection Hclose as ->.
    exists (match cr with
            | Some _ => [EvGetToken (credentialOf config) tokenScope; EvClose pool]
            | None =>
                [EvGetToken (credentialOf config) tokenScope; EvClose pool;
                 EvConnect (result_config (sqlConfigOf config accessToken n2))]
            end),
      (result_config (sqlConfigOf config accessToken n2)).
    destruct cr, kr; cbn; rewrite <- ?app_assoc; (split; [reflexivity |]);
      (eexists; reflexivity).
Qed.

(** C3.  Starting from a world in which no pool other than the stored
    one is connected, a call of [ensureSqlConnection] never has two
    connected pools: at every instant at which the call is suspended, and
    when it has ended, at most one pool reports connected; while the call
    waits for the new pool to open, none does, the previous one having
    been closed first; and when there was a connected pool to replace, the
    close request is sent before the connect request. *)
Theorem ensureSqlConnection_never_two_pools
    (env : Env) (config : Config) (w : World) :
  onlyGlobal w ->
  Forall (fun fw =>
            (connectedCount (pools (snd fw)) <= 1)%nat
            /\ forall sqlConfig, fst fw = AwaitConnect sqlConfig ->
                 connectedCount (pools (snd fw)) = 0%nat)
         (callTrace env config w)
  /\ (connectedCount (pools (snd (ensureSqlConnection env config w))) <= 1)%nat
  /\ onlyGlobal (snd (ensureSqlConnection env config w))
  /\ forall pool,
       sessionUsable w (nowAtCheck env) = false ->
       poolToClose w = Some pool ->
       exists evs sqlConfig,
         requests (snd (ensureSqlConnection env config w)) = requests w ++ evs
         /\ evs `prefix_of` [EvGetToken (credentialOf config) tokenScope;
                             EvClose pool; EvConnect sqlConfig].
Proof.
  intros Hw.
  pose proof (trace_settled env config 5 AtEntry w Hw) as Htrace.
  fold (callTrace env config w) in Htrace.
  assert (Hend : onlyGlobal (snd (ensureSqlConnection env config w))).
  { pose proof (callTrace_ensureSqlConnection env config w) as Hlast.
    apply last_Some in Hlast as [before Hlast]. rewrite Hlast in Htrace.
    rewrite Forall_app, Forall_singleton in Htrace. exact (proj2 Htrace). }
  split; [| split; [exact (onlyGlobal_count _ Hend) | split; [exact Hend |]]].
  - eapply Forall_impl; [exact Htrace |].
    intros [f w'] Hfw. cbn [fst snd] in *. split.
    + exact (settled_count f w' Hfw).
    + intros sqlConfig ->. exact (noneConnected_count w' Hfw).
  - intros pool. apply ensureSqlConnection_requests.
Qed.

(** ** Failure during a refresh *)

(** C1, as the code has it.  When the token cannot be acquired, the call
    fails and the stored token, expiry, pool handle and all pools are as
    before.  When the token is acquired and the new pool cannot be
    opened, the call fails, the stored pool handle is not replaced and
    the pool that was connected is closed, but the stored token and
    expiry are already those of the new token; the stored session is
    then unusable, whatever the time, so that the next call refreshes
    again. *)
Theorem ensureSqlConnection_failure (env : Env) (config : Config) (w : World) :
  sessionUsable w (nowAtCheck env) = false ->
  let w' := snd (ensureSqlConnection env config w) in
  (forall e, tokenReply env = inl e ->
     fst (ensureSqlConnection env config w) = Threw e
     /\ globalSqlPool w' = globalSqlPool w
     /\ globalAccessToken w' = globalAccessToken w
     /\ globalTokenExpiresOn w' = globalTokenExpiresOn w
     /\ pools w' = pools w)
  /\ (forall accessToken e,
        tokenReply env = inr accessToken ->
        closeReply env = None ->
        connectReply env = Some e ->
        fst (ensureSqlConnection env config w) = Threw e
        /\ globalSqlPool w' = globalSqlPool w
        /\ pools w' = match poolToClose w with
                      | Some pool => <[pool := false]> (pools w)
                      | None => pools w
                      end
        /\ globalAccessToken w' = token <$> accessToken
        /\ globalTokenExpiresOn w'
           = Some (result_expiresOn
                     (sqlConfigOf config accessToken (nowAtToken env)))
        /\ forall now, sessionUsable w' now = false).
Proof.
  destruct w as [gp gt ge ps rq], env as [n1 tr n2 cr kr].
  cbn [nowAtCheck tokenReply nowAtToken closeReply connectReply].
  intros Huse. cbv zeta.
  unfold ensureSqlConnection, createSqlConfig, getToken, close, connect,
    closed, opened.
  run_M. rewrite Huse. split.
  - intros e ->. run_M. repeat split.
  - intros accessToken e -> -> ->. run_M.
    destruct gp as [pool |]; [destruct (ps !! pool) as [[] |] eqn:Hpool |];
      run_M; repeat split; intros now; unfold sessionUsable, connected; run_M;
      try reflexivity.
    + rewrite list_lookup_insert_eq by (eapply lookup_lt_Some; exact Hpool).
      reflexivity.
    + rewrite Hpool. reflexivity.
    + rewrite Hpool. reflexivity.
Qed.

(** ** Two calls *)







(** ** The properties on sample data *)


Lemma onlyGlobal_sessionUntil (expiresOn : Z) : onlyGlobal (sessionUntil expiresOn).
Proof.
  intros [| pool] H; [reflexivity |]. destruct pool; discriminate H.
Qed.

Lemma ensureSqlConnection_fast_path_witness :
  ensureSqlConnection allGood sampleConfig liveSession = (Returned tt, liveSession)
  /\ step allGood sampleConfig AtEntry liveSession = (Finished (Returned tt), liveSession)
  /\ requests (snd (ensureSqlConnection allGood sampleConfig liveSession))
     = requests liveSession.
Proof.
  apply (ensureSqlConnection_fast_path allGood sampleConfig liveSession 0
           (sampleNow + 3600000)).
  - reflexivity.
  - reflexivity.
  - reflexivity.
  - reflexivity.
  - unfold timeValue; vm_compute; split; discriminate.
  - unfold timeValue; vm_compute; split; discriminate.
  - reflexivity.
Defined.

Lemma ensureSqlConnection_installs_expiry_witness :
  globalTokenExpiresOn (snd (ensureSqlConnection allGood sampleConfig staleSession))
  = Some (ValidDate (sampleNow + 3600000)).
Proof.
  exact (ensureSqlConnection_installs_expiry allGood sampleConfig staleSession
           (Some {| token := "new-token";
                    expiresOnTimestamp := Some (sampleNow + 3600000)%Z |})
           eq_refl eq_refl eq_refl).
Defined.

(** C9 as stated fails for the timestamp zero: the provider supplies
    it, and the installed expiry is the current time plus 30 minutes, not
    the date of that timestamp. *)
Lemma zero_timestamp_is_not_used :
  tokenReply zeroTimestamp
  = inr (Some {| token := "new-token"; expiresOnTimestamp := Some 0%Z |})
  /\ fst (ensureSqlConnection zeroTimestamp sampleConfig noSession) = Returned tt
  /\ globalTokenExpiresOn (snd (ensureSqlConnection zeroTimestamp sampleConfig noSession))
     = Some (ValidDate (sampleNow + 1800000))
  /\ globalTokenExpiresOn (snd (ensureSqlConnection zeroTimestamp sampleConfig noSession))
     <> Some (newDate 0).
Proof. repeat split; try reflexivity. vm_compute. discriminate. Qed.

Lemma ensureSqlConnection_never_two_pools_witness :
  Forall (fun fw =>
            (connectedCount (pools (snd fw)) <= 1)%nat
            /\ forall sqlConfig, fst fw = AwaitConnect sqlConfig ->
                 connectedCount (pools (snd fw)) = 0%nat)
         (callTrace allGood sampleConfig staleSession).
Proof.
  exact (proj1 (ensureSqlConnection_never_two_pools allGood sampleConfig staleSession
                  (onlyGlobal_sessionUntil _))).
Defined.

(** C1 as stated fails when the new pool cannot be opened: the call
    throws, and the stored token and expiry are no longer those of the
    prior session. *)
Lemma failed_connect_replaces_token :
  fst (ensureSqlConnection connectFails sampleConfig staleSession)
  = Threw connectionRefused
  /\ globalAccessToken staleSession = Some "old-token"
  /\ globalAccessToken (snd (ensureSqlConnection connectFails sampleConfig staleSession))
     = Some "new-token"
  /\ globalTokenExpiresOn (snd (ensureSqlConnection connectFails sampleConfig staleSession))
     <> globalTokenExpiresOn staleSession.
Proof. repeat split; try reflexivity. vm_compute. discriminate. Qed.

Lemma ensureSqlConnection_failure_witness :
  fst (ensureSqlConnection connectFails sampleConfig staleSession)
  = Threw connectionRefused
  /\ globalSqlPool (snd (ensureSqlConnection connectFails sampleConfig staleSession))
     = Some 0%nat
  /\ pools (snd (ensureSqlConnection connectFails sampleConfig staleSession)) = [false]
  /\ fst (ensureSqlConnection tokenFails sampleConfig staleSession)
     = Threw (ErrorObject "CredentialUnavailableError" "no credential")
  /\ pools (snd (ensureSqlConnection tokenFails sampleConfig staleSession)) = [true].
Proof.
  pose proof (ensureSqlConnection_failure connectFails sampleConfig staleSession
                eq_refl) as [_ Hconnect].
  pose proof (ensureSqlConnection_failure tokenFails sampleConfig staleSession
                eq_refl) as [Htoken _].
  destruct (Hconnect _ _ eq_refl eq_refl eq_refl) as (H1 & H2 & H3 & _).
  destruct (Htoken _ eq_refl) as (H4 & _ & _ & _ & H5).
  repeat split; assumption.
Defined.


(** Two connects that overlap are served from the driver's one pool:
    two calls started on a process without a session and resumed in turn
    both store pool 0, the only pool there is. *)
Lemma overlapping_connects_share_pool :
  pools (shared (after (fun _ => allGood) sampleConfig alternating
                   (bothAtEntry noSession))) = [true]
  /\ globalSqlPool (shared (after (fun _ => allGood) sampleConfig alternating
                              (bothAtEntry noSession))) = Some 0%nat
  /\ first (after (fun _ => allGood) sampleConfig alternating
              (bothAtEntry noSession)) = Finished (Returned tt)
  /\ second (after (fun _ => allGood) sampleConfig alternating
               (bothAtEntry noSession)) = Finished (Returned tt).
Proof. repeat split; reflexivity. Qed.

(** C2 as stated fails on a session whose token is empty, a session the
    server itself installs when the provider answers with an empty
    token: the pool is stored and reports connected, the expiry is an
    hour away, and the call still refreshes, closing the pool and opening
    another. *)
Lemma empty_token_session_refreshes :
  globalSqlPool emptyTokenSession = Some 0%nat
  /\ connected emptyTokenSession 0 = true
  /\ globalAccessToken emptyTokenSession = Some ""
  /\ globalTokenExpiresOn emptyTokenSession = Some (ValidDate (sampleNow + 3600000))
  /\ (nowAtCheck allGood + 2 * 60 * 1000 < sampleNow + 3600000)%Z
  /\ ensureSqlConnection allGood sampleConfig emptyTokenSession
     <> (Returned tt, emptyTokenSession)
  /\ pools (snd (ensureSqlConnection allGood sampleConfig emptyTokenSession))
     = [false; true]
  /\ length (requests (snd (ensureSqlConnection allGood sampleConfig emptyTokenSession)))
     = (length (requests emptyTokenSession) + 3)%nat.
Proof.
  repeat split; try reflexivity.
  intros Hsame. apply (f_equal (fun r => pools (snd r))) in Hsame.
  vm_compute in Hsame. discriminate Hsame.
Qed.


(** * Properties of the registration *)

(** C5.  With the read-only flag set, the names registered on the
    server are exactly those of the list, read and describe tools; a
    request reaches a registration exactly when it names one of the
    three; and, the eight tools having distinct names, no write tool
    (insert, update, create table, create index, drop table) is
    registered or reachable. *)
Theorem readOnly_exposes_three (t : Toolbox) (config : Config) :
  readOnly config = true ->
  exposedNames t config
  = [name (listTableTool t); name (readDataTool t); name (describeTableTool t)]
  /\ (forall n,
        (reachable t config n <> None) <->
        (n ∈ [name (listTableTool t); name (readDataTool t);
              name (describeTableTool t)]))
  /\ (NoDup (name <$> allTools t) ->
      forall tool, tool ∈ writeTools t ->
        (name tool ∉ exposedNames t config)
        /\ reachable t config (name tool) = None).
Proof.
  intros Hro.
  assert (Hnames : exposedNames t config
                   = [name (listTableTool t); name (readDataTool t);
                      name (describeTableTool t)]).
  { unfold exposedNames, registry, tools. rewrite Hro. reflexivity. }
  assert (Hreach : forall n,
            (reachable t config n <> None) <->
            (n ∈ [name (listTableTool t); name (readDataTool t);
                  name (describeTableTool t)])).
  { intros n. unfold reachable, registry, tools. rewrite Hro.
    cbn [fmap list_fmap find register registered_name].
    rewrite !elem_of_cons, elem_of_nil.
    destruct (String.eqb_spec (name (listTableTool t)) n) as [<- | H1];
      [split; [tauto | discriminate] |].
    destruct (String.eqb_spec (name (readDataTool t)) n) as [<- | H2];
      [split; [tauto | discriminate] |].
    destruct (String.eqb_spec (name (describeTableTool t)) n) as [<- | H3];
      [split; [tauto | discriminate] |].
    split; [congruence | intros [| [| [|[]]]]; congruence]. }
  split; [exact Hnames | split; [exact Hreach |]].
  intros Hdistinct tool Htool.
  assert (Hnot : name tool ∉ exposedNames t config).
  { rewrite Hnames. unfold allTools in Hdistinct. cbn [fmap list_fmap] in Hdistinct.
    unfold writeTools in Htool.
    repeat match goal with
           | H : NoDup (_ :: _) |- _ => apply NoDup_cons in H as [? H]
           end.
    rewrite !elem_of_cons, elem_of_nil in *.
    intros Hin.
    repeat match goal with
           | H : _ \/ _ |- _ => destruct H
           | H : _ ∈ [] |- _ => apply elem_of_nil in H
           | H : False |- _ => destruct H
           end; subst;
      repeat match goal with
             | H : ~ (_ \/ _) |- _ => apply Decidable.not_or in H as [? H]
             end; congruence. }
  split; [exact Hnot |].
  destruct (reachable t config (name tool)) as [r |] eqn:Hr; [| reflexivity].
  exfalso. apply Hnot. rewrite Hnames. apply Hreach. rewrite Hr. discriminate.
Qed.

Lemma readOnly_exposes_three_witness :
  exposedNames sampleTools sampleConfig
  = ["list_tables"; "read_data"; "describe_table"]
  /\ reachable sampleTools sampleConfig "drop_table" = None.
Proof.
  pose proof (readOnly_exposes_three sampleTools sampleConfig eq_refl)
    as (Hnames & _ & Hwrite).
  split; [exact Hnames |].
  refine (proj2 (Hwrite _ (dropTableTool sampleTools) _)).
  - apply (bool_decide_unpack _). vm_compute. exact I.
  - unfold writeTools. rewrite !elem_of_cons. do 4 right. left. reflexivity.
Defined.

(** ** The registered schema *)

Lemma addProperty_lookup (zodSchema : gmap string Zod) (k : string)
    (value : Property) (key : string) :
  addProperty zodSchema (k, value) !! key
  = if decide (k = key) then
      match carried value with
      | Some z => Some z
      | None => zodSchema !! key
      end
    else zodSchema !! key.
Proof.
  unfold addProperty, carried.
  destruct (decide (type value = Some "string")) as [-> | Hs].
  { case_decide as Hk; [subst; apply lookup_insert_eq | by apply lookup_insert_ne]. }
  destruct (decide (type value = Some "object")) as [-> | Ho].
  { case_decide as Hk; [subst; apply lookup_insert_eq | by apply lookup_insert_ne]. }
  assert (Hnone : match type value with
                  | Some "string" => Some (z_string (descriptionOrEmpty (property_description value)))
                  | Some "object" => Some (z_object (descriptionOrEmpty (property_description value)))
                  | _ => None
                  end = None).
  { destruct (type value) as [t |]; [| reflexivity].
    destruct (decide (t = "string")) as [-> | H1]; [congruence |].
    destruct (decide (t = "object")) as [-> | H2]; [congruence |].
    repeat (match goal with
            | |- context [match ?x with _ => _ end] =>
                is_var x; destruct x; try reflexivity; try congruence
            end). }
  rewrite Hnone. case_decide; reflexivity.
Qed.

Lemma foldl_addProperty_lookup (entries : list (string * Property))
    (zodSchema : gmap string Zod) (key : string) :
  NoDup entries.*1 ->
  foldl addProperty zodSchema entries !! key
  = match (list_to_map entries : gmap string Property) !! key ≫= carried with
    | Some z => Some z
    | None => zodSchema !! key
    end.
Proof.
  revert zodSchema.
  induction entries as [| [k value] entries IH]; intros zodSchema Hdistinct.
  - cbn. rewrite lookup_empty. reflexivity.
  - cbn [fmap list_fmap fst] in Hdistinct.
    apply NoDup_cons in Hdistinct as [Hfresh Hdistinct].
    cbn [foldl]. rewrite IH by exact Hdistinct.
    rewrite addProperty_lookup, list_to_map_cons.
    destruct (decide (k = key)) as [-> | Hne].
    + rewrite lookup_insert_eq.
      rewrite (not_elem_of_list_to_map_1 _ _ Hfresh). cbn.
      destruct (carried value); reflexivity.
    + rewrite lookup_insert_ne by exact Hne. reflexivity.
Qed.

Lemma zodSchemaOf_lookup (tool : Tool) (key : string) :
  zodSchemaOf tool !! key
  = (inputSchema_properties tool ≫= fun properties => properties !! key)
      ≫= carried.
Proof.
  unfold zodSchemaOf, Object_entries.
  destruct (inputSchema_properties tool) as [properties |]; cbn;
    [| apply lookup_empty].
  rewrite foldl_addProperty_lookup by apply NoDup_fst_map_to_list.
  rewrite list_to_map_to_list, lookup_empty.
  destruct (properties !! key ≫= carried); reflexivity.
Qed.

Lemma carried_Some (value : Property) (z : Zod) :
  carried value = Some z <->
  (type value = Some "string"
   /\ z = z_string (descriptionOrEmpty (property_description value)))
  \/ (type value = Some "object"
      /\ z = z_object (descriptionOrEmpty (property_description value))).
Proof.
  pose proof (addProperty_lookup ∅ "k" value "k") as Hadd.
  unfold addProperty in Hadd. revert Hadd.
  destruct (decide ("k" = "k")) as [_ | Hne]; [intros Hadd | congruence].
  destruct (decide (type value = Some "string")) as [Hs | Hs].
  { rewrite lookup_insert_eq in Hadd. destruct (carried value) as [z' |] eqn:Hc.
    - split; [intros [= <-]; left; split; congruence |].
      intros [[_ ->] | [Ho _]]; congruence.
    - rewrite lookup_empty in Hadd. discriminate. }
  destruct (decide (type value = Some "object")) as [Ho | Ho].
  { rewrite lookup_insert_eq in Hadd. destruct (carried value) as [z' |] eqn:Hc.
    - split; [intros [= <-]; right; split; congruence |].
      intros [[Hs' _] | [_ ->]]; congruence.
    - rewrite lookup_empty in Hadd. discriminate. }
  rewrite lookup_empty in Hadd. destruct (carried value); [discriminate |].
  split; [discriminate | tauto].
Qed.

(** C10.  For a tool whose input schema declares properties, the
    registered argument schema has an entry under a key exactly when the
    tool declares a property under that key with type ['string'] or
    ['object'], and the entry is the string or object schema with the
    property's description; a property of any other type, such as
    ['number'], ['boolean'] or ['array'], or without a type, leaves no
    entry. *)
Theorem zodSchema_carries_string_and_object
    (tool : Tool) (properties : gmap string Property) (key : string) :
  inputSchema_properties tool = Some properties ->
  (forall z,
     registered_schema (register tool) !! key = Some z <->
     exists value,
       properties !! key = Some value
       /\ ((type value = Some "string"
            /\ z = z_string (descriptionOrEmpty (property_description value)))
           \/ (type value = Some "object"
               /\ z = z_object (descriptionOrEmpty (property_description value)))))
  /\ (forall value,
        properties !! key = Some value ->
        type value <> Some "string" ->
        type value <> Some "object" ->
        registered_schema (register tool) !! key = None).
Proof.
  intros Hprops. cbn [register registered_schema].
  rewrite zodSchemaOf_lookup, Hprops. cbn [mbind option_bind]. split.
  - intros z. destruct (properties !! key) as [value |]; cbn.
    + rewrite carried_Some. split.
      * intros H. exists value. split; [reflexivity | exact H].
      * intros (value' & [= <-] & H). exact H.
    + split; [discriminate | intros (value & Hv & _); discriminate].
  - intros value -> Hs Ho. cbn.
    destruct (carried value) as [z |] eqn:Hc; [| reflexivity].
    apply carried_Some in Hc as [[H _] | [H _]]; congruence.
Qed.

Lemma zodSchema_carries_string_and_object_witness :
  registered_schema (register (readDataTool sampleTools)) !! "query"
  = Some (z_string "SQL SELECT query")
  /\ registered_schema (register (readDataTool sampleTools)) !! "data"
     = Some (z_object "")
  /\ registered_schema (register (readDataTool sampleTools)) !! "limit" = None
  /\ registered_schema (register (readDataTool sampleTools)) !! "columns" = None.
Proof.
  pose proof (fun key =>
    zodSchema_carries_string_and_object (readDataTool sampleTools)
      sampleProperties key eq_refl) as H.
  split; [| split; [| split]].
  - apply (proj1 (H "query")).
    exists {| type := Some "string"; property_description := Some "SQL SELECT query" |}.
    split; [reflexivity | left; split; reflexivity].
  - apply (proj1 (H "data")).
    exists {| type := Some "object"; property_description := None |}.
    split; [reflexivity | right; split; reflexivity].
  - apply (proj2 (H "limit")
             {| type := Some "number";
                property_description := Some "Maximum number of rows" |});
      [reflexivity | discriminate | discriminate].
  - apply (proj2 (H "columns") {| type := Some "array"; property_description := None |});
      [reflexivity | discriminate | discriminate].
Defined.

(** * Properties of the tool handler *)

Lemma tryCatch_returns {A} (body : M A) (handler : Thrown -> M A) (w : World) :
  (forall e w', exists a w'', handler e w' = (Returned a, w'')) ->
  exists a w', tryCatch body handler w = (Returned a, w').
Proof.
  intros Hhandler. unfold tryCatch.
  destruct (body w) as [[a | e] w']; [eauto | apply Hhandler].
Qed.

(** C8.  Whatever the outside answers, the handler returns a response
    and never throws.  When [ensureSqlConnection] throws, when the
    tool's [run] throws (a rejected query, a failed execution), or when
    the result cannot be serialized, the response is the failure
    response for the thrown value: flagged [isError], its text being the
    serialization of [success: false], a message and the error detail.
    When nothing throws, the response carries the serialized result and
    no error flag. *)
Theorem handler_surfaces_errors {RunValue : Type}
    (JSON_stringify : RunValue -> Thrown + string)
    (JSON_stringify_literal : list (string * (bool + string)) -> string)
    (env : HandlerEnv) (config : Config) (w : World) :
  let outcome := handler JSON_stringify JSON_stringify_literal env config w in
  let failed e := fst outcome = Returned (failureResponse JSON_stringify_literal e) in
  (exists response w', outcome = (Returned response, w'))
  /\ (forall e,
        fst (ensureSqlConnection (connection env) config w) = Threw e -> failed e)
  /\ (forall e,
        fst (ensureSqlConnection (connection env) config w) = Returned tt ->
        runReply env = inl e -> failed e)
  /\ (forall result e,
        fst (ensureSqlConnection (connection env) config w) = Returned tt ->
        runReply env = inr result -> JSON_stringify result = inl e -> failed e)
  /\ (forall result text,
        fst (ensureSqlConnection (connection env) config w) = Returned tt ->
        runReply env = inr result -> JSON_stringify result = inr text ->
        fst outcome
        = Returned {| content_type := "text"; content_text := text;
                      isError := None |})
  /\ (forall e,
        isError (failureResponse JSON_stringify_literal e) = Some true
        /\ content_text (failureResponse JSON_stringify_literal e)
           = JSON_stringify_literal
               [("success", inl false);
                ("message", inr ("Error occurred: " ++ Thrown_toString e)%string);
                ("error", inr match e with
                              | ErrorObject _ message => message
                              | NonError _ => "Unknown error"
                              end)]).
Proof.
  cbv zeta. split.
  { apply tryCatch_returns. intros e w'. eexists _, _. reflexivity. }
  unfold handler, tryCatch, run, stringify, mbind, M_bind, mret, M_ret, throw.
  destruct (ensureSqlConnection (connection env) config w) as [[[] | e0] w'];
    cbn [fst snd].
  - split; [discriminate |]. split; [intros e _ ->; reflexivity |].
    split; [intros result e _ -> ->; reflexivity |].
    split; [intros result text _ -> ->; reflexivity |].
    intros e. split; reflexivity.
  - split; [intros e [= ->]; reflexivity |].
    split; [discriminate |]. split; [discriminate |]. split; [discriminate |].
    intros e. split; reflexivity.
Qed.

Lemma handler_surfaces_errors_witness :
  fst (handler (fun result : string => inr result) (fun _ => "{}")
         {| connection := connectFails; runReply := inr "[]" |}
         sampleConfig staleSession)
  = Returned (failureResponse (fun _ => "{}") connectionRefused).
Proof.
  apply (proj1 (proj2 (handler_surfaces_errors
                         (fun result : string => inr result) (fun _ => "{}")
                         {| connection := connectFails; runReply := inr "[]" |}
                         sampleConfig staleSession))).
  reflexivity.
Defined.

(** * Properties of the query safety validator *)

Module ValidatorFacts.

Import Validator.
Local Open Scope char_scope.
Local Open Scope list_scope.

(** ** Statement separators *)

Lemma not_all_space (s : list ascii) :
  forallb isSpace s = false <-> exists c, c ∈ s /\ isSpace c = false.
Proof.
  induction s as [| a s IH]; cbn [forallb].
  - split; [discriminate | intros (c & Hc & _); inversion Hc].
  - rewrite andb_false_iff, IH. split.
    + intros [Ha | (c & Hc & Hs)]; [exists a | exists c]; split; auto;
        [left | right; exact Hc].
    + intros (c & Hc & Hs). apply elem_of_cons in Hc as [-> | Hc]; eauto.
Qed.

Lemma multiStatement_spec (s : list ascii) :
  multiStatement s = true <-> hasContentAfterSeparator s.
Proof.
  unfold hasContentAfterSeparator. induction s as [| a s IH]; cbn [multiStatement].
  - split; [discriminate |]. intros (before & after & c & Hs & _).
    destruct before; discriminate.
  - rewrite orb_true_iff, andb_true_iff, negb_true_iff, not_all_space, IH.
    split.
    + intros [[Ha (c & Hc & Hs)] | (before & after & c & -> & Hc & Hs)].
      * apply Ascii.eqb_eq in Ha as ->. exists [], s, c.
        split; [reflexivity | split; assumption].
      * exists (a :: before), after, c.
        split; [reflexivity | split; assumption].
    + intros (before & after & c & Heq & Hc & Hs).
      destruct before as [| b before]; cbn in Heq; injection Heq as -> ->.
      * left. split; [apply Ascii.eqb_refl | eauto].
      * right. exists before, after, c. auto.
Qed.

Lemma separator_not_blank (s : list ascii) :
  multiStatement s = true -> blank s = false.
Proof.
  unfold blank. induction s as [| a s IH]; cbn [multiStatement forallb];
    [discriminate |].
  intros [[Ha _] %andb_true_iff | Hs] %orb_true_iff.
  - apply Ascii.eqb_eq in Ha as ->. reflexivity.
  - rewrite (IH Hs). apply andb_false_r.
Qed.

Lemma trailing_separator (body trailing : list ascii) :
  ";" ∉ body -> forallb isSpace trailing = true ->
  multiStatement (body ++ ";" :: trailing) = false.
Proof.
  intros Hbody Htrail. induction body as [| a body IH]; cbn [app multiStatement].
  - rewrite Htrail. cbn.
    clear Hbody. induction trailing as [| b trailing IH]; [reflexivity |].
    cbn [forallb] in Htrail. apply andb_true_iff in Htrail as [Hb Htrail].
    cbn [multiStatement]. rewrite (IH Htrail), orb_false_r.
    destruct (Ascii.eqb_spec b ";") as [-> | _]; [discriminate Hb | reflexivity].
  - apply not_elem_of_cons in Hbody as [Ha Hbody]. rewrite (IH Hbody), orb_false_r.
    destruct (Ascii.eqb_spec a ";") as [-> | _]; [congruence | reflexivity].
Qed.

(** C7.  The validator rejects a fragment as a multi-statement batch
    exactly when the fragment contains a [;] followed by further
    non-whitespace content, so that every such fragment is rejected;
    and a fragment with one [;], followed only by whitespace or by the
    end of the input, is not rejected on that ground. *)
Theorem validate_multi_statement (sqlText : string) (mode : Mode) :
  (validate sqlText mode = Reject MultiStatement <->
   hasContentAfterSeparator (list_ascii_of_string sqlText))
  /\ (forall body trailing,
        list_ascii_of_string sqlText = body ++ ";" :: trailing ->
        ";" ∉ body -> forallb isSpace trailing = true ->
        validate sqlText mode <> Reject MultiStatement)
  /\ validate "SELECT 1; DROP TABLE Users" mode = Reject MultiStatement
  /\ validate "SELECT 1;" mode = Accept
  /\ validate "SELECT 1; " mode = Accept.
Proof.
  assert (Hiff : validate sqlText mode = Reject MultiStatement <->
                 multiStatement (list_ascii_of_string sqlText) = true).
  { unfold validate.
    destruct (multiStatement (list_ascii_of_string sqlText)) eqn:Hmulti.
    - rewrite (separator_not_blank _ Hmulti). tauto.
    - destruct (blank _); [split; discriminate |].
      destruct (containsDenylisted _); [split; discriminate |].
      destruct (disallowedComment _); [split; discriminate |].
      destruct (selectPrefix _); split; discriminate. }
  split; [rewrite Hiff; apply multiStatement_spec |].
  split; [| repeat split; reflexivity].
  intros body trailing Hs Hbody Htrail Hreject.
  apply Hiff in Hreject. rewrite Hs, trailing_separator in Hreject by assumption.
  discriminate.
Qed.

Lemma validate_multi_statement_witness :
  validate "SELECT name FROM Users ;  " ReadOnlyMode <> Reject MultiStatement.
Proof.
  apply (proj1 (proj2 (validate_multi_statement "SELECT name FROM Users ;  "
                         ReadOnlyMode))
           (list_ascii_of_string "SELECT name FROM Users ") [" "; " "]).
  - reflexivity.
  - apply (bool_decide_unpack _). vm_compute. exact I.
  - reflexivity.
Defined.

(** ** Words *)

Lemma words_spec (s : list ascii) :
  exists h t post,
    words s = h :: t
    /\ s = h ++ post
    /\ Forall (fun c => isWordChar c = true) h
    /\ startsAtBoundary post
    /\ forall w, w ∈ t ->
         exists before after,
           s = before ++ w ++ after
           /\ (exists b c, before = b ++ [c] /\ isWordChar c = false)
           /\ startsAtBoundary after.
Proof.
  induction s as [| a s (h & t & post & Hwords & Hs & Hh & Hpost & Ht)].
  - exists [], [], []. repeat split; [constructor | left; reflexivity |].
    intros w Hw. inversion Hw.
  - cbn [words]. destruct (isWordChar a) eqn:Ha.
    + rewrite Hwords. exists (a :: h), t, post.
      split; [reflexivity |]. split; [cbn; congruence |].
      split; [constructor; assumption |]. split; [exact Hpost |].
      intros w Hw. destruct (Ht w Hw) as (before & after & Heq & (b & c & -> & Hc) & Hafter).
      exists (a :: b ++ [c]), after. split; [cbn; congruence |].
      split; [exists (a :: b), c; auto | exact Hafter].
    + exists [], (words s), (a :: s).
      split; [reflexivity |]. split; [reflexivity |].
      split; [constructor |]. split; [right; exists a, s; auto |].
      rewrite Hwords. intros w Hw. apply elem_of_cons in Hw as [-> | Hw].
      * exists [a], post. split; [cbn; congruence |].
        split; [exists [], a; auto | exact Hpost].
      * destruct (Ht w Hw) as (before & after & Heq & (b & c & -> & Hc) & Hafter).
        exists (a :: b ++ [c]), after. split; [cbn; congruence |].
        split; [exists (a :: b), c; auto | exact Hafter].
Qed.

Lemma words_wholeWord (w s : list ascii) : w ∈ words s -> wholeWord w s.
Proof.
  destruct (words_spec s) as (h & t & post & -> & Hs & _ & Hpost & Ht).
  intros [-> | Hw] %elem_of_cons.
  - exists [], post. split; [exact Hs |]. split; [left; reflexivity | exact Hpost].
  - destruct (Ht w Hw) as (before & after & Heq & (b & c & Hb & Hc) & Hafter).
    exists before, after. split; [exact Heq |].
    split; [right; exists b, c; auto | exact Hafter].
Qed.

Lemma words_of_word (w after : list ascii) :
  Forall (fun c => isWordChar c = true) w -> startsAtBoundary after ->
  exists t, words (w ++ after) = w :: t.
Proof.
  intros Hw Hafter. induction Hw as [| a w Ha _ (t & IH)]; cbn [app words].
  - destruct Hafter as [-> | (c & rest & -> & Hc)].
    + exists []. reflexivity.
    + cbn [words]. rewrite Hc. eauto.
  - rewrite Ha, IH. eauto.
Qed.

Lemma words_after_separator (before : list ascii) (c : ascii)
    (rest w : list ascii) :
  isWordChar c = false -> w ∈ words rest ->
  w ∈ tail (words (before ++ c :: rest)).
Proof.
  intros Hc Hw. induction before as [| a before IH]; cbn [app words].
  - rewrite Hc. exact Hw.
  - destruct (isWordChar a).
    + destruct (words (before ++ c :: rest)) as [| h t]; [inversion IH | exact IH].
    + cbn [tail]. destruct (words (before ++ c :: rest)) as [| h t];
        [inversion IH | right; exact IH].
Qed.

Lemma wholeWord_words (w s : list ascii) :
  Forall (fun c => isWordChar c = true) w -> wholeWord w s -> w ∈ words s.
Proof.
  intros Hw (before & after & -> & Hbefore & Hafter).
  destruct (words_of_word w after Hw Hafter) as (t & Hwords).
  destruct Hbefore as [-> | (b & c & -> & Hc)].
  - cbn [app]. rewrite Hwords. left.
  - rewrite <- app_assoc. cbn [app].
    assert (Hin : w ∈ words (w ++ after)) by (rewrite Hwords; left).
    pose proof (words_after_separator b c (w ++ after) w Hc Hin) as Htail.
    destruct (words (b ++ c :: w ++ after)) as [| h t']; [inversion Htail |].
    right. exact Htail.
Qed.

(** ** The denylist *)

Lemma toUpper_wordChar (c : ascii) :
  isWordChar (toUpper c) = true -> isWordChar c = true.
Proof.
  unfold toUpper. destruct (between 97 122 c) eqn:Hlower; [| tauto].
  intros _. unfold isWordChar. rewrite Hlower. apply orb_true_iff. left.
  apply orb_true_r.
Qed.

Lemma denylisted_wordChars (w : list ascii) :
  upper w ∈ denylist -> Forall (fun c => isWordChar c = true) w.
Proof.
  intros Hw.
  assert (Hall : Forall (fun k => forallb isWordChar k = true) denylist)
    by (apply (bool_decide_unpack _); vm_compute; exact I).
  rewrite Forall_forall in Hall. specialize (Hall _ Hw).
  unfold upper in Hall. clear Hw.
  induction w as [| c w IH]; [constructor |].
  cbn [fmap list_fmap forallb] in Hall. apply andb_true_iff in Hall as [Hc Hall].
  constructor; [apply toUpper_wordChar, Hc | apply IH, Hall].
Qed.

Lemma containsDenylisted_spec (s : list ascii) :
  containsDenylisted s = true <-> hasDenylistedWord s.
Proof.
  unfold containsDenylisted, hasDenylistedWord, denylisted.
  rewrite existsb_exists. split.
  - intros (w & Hin & Hw). apply bool_decide_eq_true in Hw.
    exists w. split; [exact Hw |]. apply words_wholeWord, list_elem_of_In, Hin.
  - intros (w & Hw & Hwhole). exists w. split.
    + apply list_elem_of_In, wholeWord_words; [| exact Hwhole].
      exact (denylisted_wordChars w Hw).
    + apply bool_decide_eq_true. exact Hw.
Qed.

Lemma hasDenylistedWord_not_blank (s : list ascii) :
  hasDenylistedWord s -> blank s = false.
Proof.
  intros (w & Hw & before & after & -> & _).
  pose proof (denylisted_wordChars w Hw) as Hchars.
  destruct w as [| c w].
  { exfalso. revert Hw. apply (bool_decide_eq_false_1 _). reflexivity. }
  apply Forall_cons in Hchars as [Hc _].
  unfold blank. apply not_all_space. exists c. split.
  - apply elem_of_app. right. left.
  - unfold isSpace, isWordChar, between in *.
    destruct (Ascii.eqb_spec c " ") as [-> | _]; [discriminate Hc |].
    cbn [orb]. apply andb_false_iff.
    apply orb_true_iff in Hc as [Hc | Hc].
    + apply orb_true_iff in Hc as [Hc | Hc].
      * apply orb_true_iff in Hc as [Hc | Hc];
          apply andb_true_iff in Hc as [Hlo _]; apply Nat.leb_le in Hlo;
          right; apply Nat.leb_gt; lia.
      * apply andb_true_iff in Hc as [Hlo _]; apply Nat.leb_le in Hlo.
        right; apply Nat.leb_gt; lia.
    + apply Ascii.eqb_eq in Hc as ->. right. reflexivity.
Qed.

(** C6.  The denylist check of the validator fires exactly when the
    fragment contains, in any case and as a whole word, one of INSERT,
    UPDATE, DELETE, DROP, ALTER, CREATE, TRUNCATE, EXEC, EXECUTE, MERGE,
    GRANT, REVOKE, BACKUP, RESTORE.  The validator rejects for a
    denylisted keyword exactly the fragments that contain such a word
    and are not multi-statement batches; every fragment that contains
    such a word is rejected; and a fragment that passes the other
    steps is accepted exactly when it contains no such word.  An
    identifier that merely contains a denylisted word, such as
    [Updates] or [updates_log], does not trigger the rejection. *)
Theorem validate_denylist (sqlText : string) (mode : Mode) :
  let s := list_ascii_of_string sqlText in
  (containsDenylisted s = true <-> hasDenylistedWord s)
  /\ (validate sqlText mode = Reject DenylistedKeyword <->
      hasDenylistedWord s /\ ~ hasContentAfterSeparator s)
  /\ (hasDenylistedWord s -> exists reason, validate sqlText mode = Reject reason)
  /\ (blank s = false -> multiStatement s = false ->
      disallowedComment s = false -> selectPrefix s = true ->
      (validate sqlText mode = Accept <-> ~ hasDenylistedWord s))
  /\ validate "UPDATE Users SET x=1" mode = Reject DenylistedKeyword
  /\ validate "select * from t; drop table t" mode = Reject MultiStatement
  /\ validate "SELECT * FROM Users WHERE id IN (exec sp_who)" mode
     = Reject DenylistedKeyword
  /\ validate "SELECT * FROM Updates" mode = Accept
  /\ validate "SELECT * FROM updates_log" mode = Accept.
Proof.
  cbv zeta. set (s := list_ascii_of_string sqlText).
  pose proof (containsDenylisted_spec s) as Hcontains.
  pose proof (multiStatement_spec s) as Hmulti.
  split; [exact Hcontains |].
  split; [| split; [| split; [| repeat split; reflexivity]]].
  - unfold validate. fold s. rewrite <- Hcontains, <- Hmulti.
    assert (Hnb : containsDenylisted s = true -> blank s = false)
      by (intros H; apply hasDenylistedWord_not_blank, Hcontains, H).
    clear Hcontains Hmulti. destruct (containsDenylisted s).
    + rewrite (Hnb eq_refl).
      destruct (multiStatement s); split; try tauto; try discriminate.
      intros _. split; [reflexivity | discriminate].
    + destruct (blank s); [split; [discriminate | intros [? _]; discriminate] |].
      destruct (multiStatement s);
        [split; [discriminate | intros [? _]; discriminate] |].
      destruct (disallowedComment s);
        [split; [discriminate | intros [? _]; discriminate] |].
      destruct (selectPrefix s); split; try discriminate;
        intros [? _]; discriminate.
  - intros Hword. unfold validate. fold s.
    rewrite (hasDenylistedWord_not_blank s Hword), (proj2 Hcontains Hword).
    destruct (multiStatement s); eauto.
  - intros Hblank Hsep Hcomment Hselect. unfold validate. fold s.
    rewrite Hblank, Hsep, Hcomment, Hselect, <- Hcontains.
    destruct (containsDenylisted s); cbn [negb]; split; try discriminate;
      try reflexivity; try tauto.
Qed.

Lemma validate_denylist_witness :
  exists reason, validate "SELECT a FROM t WHERE b = 1 OR Drop = 2" ReadOnlyMode
                 = Reject reason.
Proof.
  apply (proj1 (proj2 (proj2 (validate_denylist
                  "SELECT a FROM t WHERE b = 1 OR Drop = 2" ReadOnlyMode)))).
  exists (list_ascii_of_string "Drop"). split.
  - apply (bool_decide_unpack _). vm_compute. exact I.
  - exists (list_ascii_of_string "SELECT a FROM t WHERE b = 1 OR "),
      (list_ascii_of_string " = 2").
    split; [reflexivity |]. split.
    + right. exists (list_ascii_of_string "SELECT a FROM t WHERE b = 1 OR"), " ".
      split; reflexivity.
    + right. exists " ", (list_ascii_of_string "= 2"). split; reflexivity.
Defined.

End ValidatorFacts.

(** * Further properties of the connection lifecycle *)

(** Unfolding of a call of [ensureSqlConnection] on a world and an
    outside given by their fields. *)
Ltac ensure_cases :=
  unfold ensureSqlConnection, createSqlConfig, getToken, close, connect,
    closed, opened;
  run_M.

Lemma sessionUsable_spec (w : World) (now : Z) :
  timeValue (now + 2 * 60 * 1000) ->
  sessionUsable w now = true <->
  exists pool expiresOn,
    globalSqlPool w = Some pool
    /\ connected w pool = true
    /\ truthyString (globalAccessToken w) = true
    /\ globalTokenExpiresOn w = Some (ValidDate expiresOn)
    /\ (now + 2 * 60 * 1000 < expiresOn)%Z.
Proof.
  intros Hnow. unfold sessionUsable. split.
  - destruct (globalSqlPool w) as [pool |] eqn:Hpool; [| discriminate].
    destruct (connected w pool) eqn:Hconn; [| discriminate].
    destruct (truthyString (globalAccessToken w)) eqn:Htok; [| discriminate].
    destruct (globalTokenExpiresOn w) as [[expiresOn |] |] eqn:Hexp;
      try discriminate.
    cbn [andb]. rewrite Date_gt_valid by exact Hnow. intros Hlater.
    exists pool, expiresOn. repeat split; auto.
  - intros (pool & expiresOn & -> & -> & -> & -> & Hlater). cbn [andb].
    apply Date_gt_valid; assumption.
Qed.

Lemma ensureSqlConnection_usable (env : Env) (config : Config) (w : World) :
  sessionUsable w (nowAtCheck env) = true ->
  ensureSqlConnection env config w = (Returned tt, w).
Proof.
  intros Huse. unfold ensureSqlConnection, mbind, M_bind, getWorld.
  rewrite Huse. reflexivity.
Qed.

Lemma refresh_requests_head (env : Env) (config : Config) (w : World) :
  sessionUsable w (nowAtCheck env) = false ->
  exists rest,
    requests (snd (ensureSqlConnection env config w))
    = requests w ++ EvGetToken (credentialOf config) tokenScope :: rest.
Proof.
  destruct w as [gp gt ge ps rq], env as [n1 tr n2 cr kr].
  cbn [nowAtCheck requests]. intros Huse. ensure_cases. rewrite Huse.
  destruct tr as [e | accessToken]; run_M; [exists []; reflexivity |].
  destruct gp as [pool |]; [destruct (ps !! pool) as [[] |] |];
    destruct cr, kr; run_M; rewrite <- ?app_assoc; eexists; reflexivity.
Qed.

(** X1.  Given a clock within the range of dates, a call sends no
    request exactly when a pool handle is stored, that pool reports
    connected, the stored token is not empty, and the stored expiry is a
    valid date strictly more than two minutes after the current time; in
    every other state, an expiry exactly two minutes away included, the
    first thing the call does is ask the credential provider for a
    token. *)
Theorem ensureSqlConnection_refreshes_iff (env : Env) (config : Config) (w : World) :
  timeValue (nowAtCheck env + 2 * 60 * 1000) ->
  let usable :=
    exists pool expiresOn,
      globalSqlPool w = Some pool
      /\ connected w pool = true
      /\ truthyString (globalAccessToken w) = true
      /\ globalTokenExpiresOn w = Some (ValidDate expiresOn)
      /\ (nowAtCheck env + 2 * 60 * 1000 < expiresOn)%Z in
  (requests (snd (ensureSqlConnection env config w)) = requests w <-> usable)
  /\ (~ usable ->
      exists rest,
        requests (snd (ensureSqlConnection env config w))
        = requests w ++ EvGetToken (credentialOf config) tokenScope :: rest).
Proof.
  intros Hnow. cbv zeta.
  pose proof (sessionUsable_spec w (nowAtCheck env) Hnow) as Hspec.
  destruct (sessionUsable w (nowAtCheck env)) eqn:Huse.
  - rewrite (ensureSqlConnection_usable env config w Huse). cbn [snd].
    split; [tauto |]. intros Hnot. exfalso. apply Hnot, Hspec. reflexivity.
  - destruct (refresh_requests_head env config w Huse) as [rest Hrest].
    split; [| eauto]. split.
    + intros Hsame. rewrite Hsame in Hrest.
      apply (f_equal length) in Hrest. rewrite length_app in Hrest.
      cbn [length] in Hrest. lia.
    + intros Husable. apply Hspec in Husable. discriminate.
Qed.

Lemma ensureSqlConnection_refreshes_iff_witness :
  exists rest,
    requests (snd (ensureSqlConnection
                     (envAt (sampleNow + 3480000)
                        (freshToken (Some (sampleNow + 7200000)%Z)) None None)
                     sampleConfig liveSession))
    = requests liveSession
      ++ EvGetToken (credentialOf sampleConfig) tokenScope :: rest.
Proof.
  apply (proj2 (ensureSqlConnection_refreshes_iff
                  (envAt (sampleNow + 3480000)
                     (freshToken (Some (sampleNow + 7200000)%Z)) None None)
                  sampleConfig liveSession
                  ltac:(unfold timeValue; vm_compute; split; discriminate))).
  intros (pool & expiresOn & _ & _ & _ & Hexp & Hlater).
  injection Hexp as <-. vm_compute in Hlater. discriminate Hlater.
Defined.

(** X2.  A call that refreshes sends exactly one token request, with
    the credential the configuration selects and the scope of the
    database service; then at most one close request, and only for the
    stored pool when it reports connected; then at most one connect
    request, for the configuration built from the token received. *)
Theorem ensureSqlConnection_refresh_sends (env : Env) (config : Config) (w : World) :
  sessionUsable w (nowAtCheck env) = false ->
  exists closes connects,
    requests (snd (ensureSqlConnection env config w))
    = requests w ++ EvGetToken (credentialOf config) tokenScope :: closes ++ connects
    /\ (closes = []
        \/ exists pool, closes = [EvClose pool]
                        /\ globalSqlPool w = Some pool /\ connected w pool = true)
    /\ (connects = []
        \/ exists accessToken,
             tokenReply env = inr accessToken
             /\ connects = [EvConnect (result_config
                              (sqlConfigOf config accessToken (nowAtToken env)))]).
Proof.
  destruct w as [gp gt ge ps rq], env as [n1 tr n2 cr kr].
  cbn [nowAtCheck nowAtToken tokenReply requests globalSqlPool]. intros Huse.
  ensure_cases. rewrite Huse.
  destruct tr as [e | accessToken]; run_M.
  { exists [], []. split; [reflexivity | split; left; reflexivity]. }
  destruct gp as [pool |]; [destruct (ps !! pool) as [[] |] eqn:Hpool |].
  - destruct cr as [e |]; [| destruct kr]; run_M; rewrite <- ?app_assoc.
    + exists [EvClose pool], []. split; [reflexivity |]. split; [| left; reflexivity].
      right. exists pool. rewrite Hpool. auto.
    + exists [EvClose pool], [EvConnect (result_config (sqlConfigOf config accessToken n2))].
      split; [reflexivity |]. split; [right; exists pool; rewrite Hpool; auto |].
      right. exists accessToken. auto.
    + exists [EvClose pool], [EvConnect (result_config (sqlConfigOf config accessToken n2))].
      split; [reflexivity |]. split; [right; exists pool; rewrite Hpool; auto |].
      right. exists accessToken. auto.
  - destruct kr; run_M; rewrite <- ?app_assoc;
      exists [], [EvConnect (result_config (sqlConfigOf config accessToken n2))];
      (split; [reflexivity |]); (split; [left; reflexivity |]);
      right; exists accessToken; auto.
  - destruct kr; run_M; rewrite <- ?app_assoc;
      exists [], [EvConnect (result_config (sqlConfigOf config accessToken n2))];
      (split; [reflexivity |]); (split; [left; reflexivity |]);
      right; exists accessToken; auto.
  - destruct kr; run_M; rewrite <- ?app_assoc;
      exists [], [EvConnect (result_config (sqlConfigOf config accessToken n2))];
      (split; [reflexivity |]); (split; [left; reflexivity |]);
      right; exists accessToken; auto.
Qed.

Lemma ensureSqlConnection_refresh_sends_witness :
  exists closes connects,
    requests (snd (ensureSqlConnection allGood sampleConfig staleSession))
    = requests staleSession
      ++ EvGetToken (credentialOf sampleConfig) tokenScope :: closes ++ connects
    /\ (closes = []
        \/ exists pool, closes = [EvClose pool]
                        /\ globalSqlPool staleSession = Some pool
                        /\ connected staleSession pool = true)
    /\ (connects = []
        \/ exists accessToken,
             tokenReply allGood = inr accessToken
             /\ connects = [EvConnect (result_config
                              (sqlConfigOf sampleConfig accessToken
                                 (nowAtToken allGood)))]).
Proof.
  exact (ensureSqlConnection_refresh_sends allGood sampleConfig staleSession eq_refl).
Defined.

(** X3.  A call that refreshes returns normally exactly when the token
    is acquired, the close of the old pool (if there is one to close)
    succeeds, and the connect succeeds.  Otherwise it throws the error of
    the first of these that failed, as it was thrown: nothing is retried
    and nothing after the failure is attempted. *)
Theorem ensureSqlConnection_refresh_outcome (env : Env) (config : Config) (w : World) :
  sessionUsable w (nowAtCheck env) = false ->
  (fst (ensureSqlConnection env config w) = Returned tt <->
   (exists accessToken, tokenReply env = inr accessToken)
   /\ (poolToClose w = None \/ closeReply env = None)
   /\ connectReply env = None)
  /\ (forall e,
        fst (ensureSqlConnection env config w) = Threw e <->
        tokenReply env = inl e
        \/ ((exists accessToken, tokenReply env = inr accessToken)
            /\ poolToClose w <> None /\ closeReply env = Some e)
        \/ ((exists accessToken, tokenReply env = inr accessToken)
            /\ (poolToClose w = None \/ closeReply env = None)
            /\ connectReply env = Some e)).
Proof.
  destruct w as [gp gt ge ps rq], env as [n1 tr n2 cr kr].
  cbn [nowAtCheck nowAtToken tokenReply closeReply connectReply]. intros Huse.
  ensure_cases. rewrite Huse.
  destruct tr as [e0 | accessToken]; run_M.
  { split; [split; [discriminate | intros [[a Ha] _]; discriminate] |].
    intros e. split.
    - intros [= ->]. left. reflexivity.
    - intros [[= ->] | [[[a Ha] _] | [[a Ha] _]]]; [reflexivity | discriminate ..]. }
  destruct gp as [pool |]; [destruct (ps !! pool) as [[] |] |];
    destruct cr as [ec |], kr as [ek |]; run_M;
    (split; [split; [try discriminate; intros _; repeat split; eauto
                    | intros (_ & Hclose & Hconnect);
                      try discriminate; try reflexivity;
                      destruct Hclose; discriminate]
            | intros e; split;
              [ try discriminate; intros [= ->];
                first [ right; left; repeat split; eauto; discriminate
                      | right; right; repeat split; eauto ]
              | intros [Ht | [(_ & Hne & Hc) | (_ & Hc & Hk)]];
                try discriminate; try congruence;
                try (destruct Hc; congruence) ]]).
Qed.

Lemma ensureSqlConnection_refresh_outcome_witness :
  fst (ensureSqlConnection closeFails sampleConfig staleSession)
  = Threw (ErrorObject "ConnectionError" "Cannot close").
Proof.
  apply (proj2 (ensureSqlConnection_refresh_outcome closeFails sampleConfig
                  staleSession eq_refl)).
  right. left. split; [eexists; reflexivity |]. split; [discriminate | reflexivity].
Defined.


(** The product is rounded where a double cannot hold it: the largest
    odd integer a double holds, times 1000. *)
Lemma Number_mul_rounds :
  Number_mul 9007199254740991 1000 = Finite 9007199254740990976.
Proof. vm_compute. reflexivity. Qed.



Lemma refresh_success_pools (env : Env) (config : Config) (w : World) :
  sessionUsable w (nowAtCheck env) = false ->
  fst (ensureSqlConnection env config w) = Returned tt ->
  globalSqlPool (snd (ensureSqlConnection env config w)) = Some (length (pools w))
  /\ pools (snd (ensureSqlConnection env config w))
     = match poolToClose w with
       | Some pool => <[pool := false]> (pools w)
       | None => pools w
       end ++ [true].
Proof.
  destruct w as [gp gt ge ps rq], env as [n1 tr n2 cr kr].
  cbn [nowAtCheck]. intros Huse. ensure_cases. rewrite Huse.
  destruct tr as [e | accessToken]; run_M; [discriminate |].
  destruct gp as [pool |]; [destruct (ps !! pool) as [[] |] |];
    destruct cr, kr; run_M; try discriminate; intros _;
    rewrite ?length_insert; split; reflexivity.
Qed.

(** X5.  A refresh that succeeds stores a pool that did not exist
    before the call; that pool reports connected; the pool that was
    connected before is closed; and when no pool other than the stored
    one was connected before the call, the new pool is the only one
    connected after it. *)
Theorem ensureSqlConnection_refresh_success (env : Env) (config : Config) (w : World) :
  sessionUsable w (nowAtCheck env) = false ->
  fst (ensureSqlConnection env config w) = Returned tt ->
  let w' := snd (ensureSqlConnection env config w) in
  globalSqlPool w' = Some (length (pools w))
  /\ pools w !! length (pools w) = None
  /\ connected w' (length (pools w)) = true
  /\ (forall pool, globalSqlPool w = Some pool -> is_Some (pools w !! pool) ->
        connected w' pool = false)
  /\ (onlyGlobal w ->
      forall pool, connected w' pool = true -> pool = length (pools w)).
Proof.
  intros Huse Hok w'.
  pose proof (refresh_success_pools env config w Huse Hok) as Hpools.
  fold w' in Hpools.
  destruct Hpools as [Hglobal Hpools].
  set (base := match poolToClose w with
               | Some pool => <[pool := false]> (pools w)
               | None => pools w
               end) in Hpools.
  assert (Hlen : length base = length (pools w)).
  { unfold base. destruct (poolToClose w); [apply length_insert | reflexivity]. }
  assert (Hold : forall pool,
            (pool < length (pools w))%nat ->
            base !! pool = Some true ->
            pools w !! pool = Some true /\ globalSqlPool w <> Some pool).
  { intros pool Hlt Hb. unfold base in Hb.
    destruct (poolToClose w) as [p |] eqn:Hclose; [| split; [exact Hb |]].
    - apply poolToClose_Some in Hclose as [Hp _].
      destruct (decide (p = pool)) as [-> | Hne].
      + rewrite list_lookup_insert_eq in Hb by exact Hlt. discriminate.
      + rewrite list_lookup_insert_ne in Hb by exact Hne.
        split; [exact Hb | congruence].
    - intros Hstored.
      assert (Hsome : poolToClose w = Some pool)
        by (apply poolToClose_Some; split;
            [exact Hstored | apply connected_lookup, Hb]).
      congruence. }
  assert (Hnew : forall pool,
            connected w' pool = true ->
            pool = length (pools w)
            \/ ((pool < length (pools w))%nat /\ base !! pool = Some true)).
  { intros pool Hconn. apply connected_lookup in Hconn. rewrite Hpools in Hconn.
    destruct (decide (pool < length (pools w))%nat) as [Hlt | Hge].
    - rewrite lookup_app_l in Hconn by lia. right. auto.
    - destruct (decide (pool = length (pools w))) as [-> | Hne]; [left; reflexivity |].
      rewrite lookup_ge_None_2 in Hconn; [discriminate |].
      rewrite length_app. cbn [length]. lia. }
  split; [exact Hglobal |]. split; [apply lookup_ge_None_2; lia |].
  split; [| split].
  - apply connected_lookup. rewrite Hpools, lookup_app_r by lia.
    rewrite Hlen, Nat.sub_diag. reflexivity.
  - intros pool Hstored Hexists.
    destruct (connected w' pool) eqn:Hconn; [| reflexivity].
    exfalso. apply lookup_lt_is_Some in Hexists.
    destruct (Hnew pool Hconn) as [-> | [Hlt Hb]]; [lia |].
    destruct (Hold pool Hlt Hb) as [_ Hne]. congruence.
  - intros Hw pool Hconn. destruct (Hnew pool Hconn) as [-> | [Hlt Hb]]; [reflexivity |].
    exfalso. destruct (Hold pool Hlt Hb) as [Hl Hne].
    apply connected_lookup, Hw in Hl. congruence.
Qed.

Lemma ensureSqlConnection_refresh_success_witness :
  globalSqlPool (snd (ensureSqlConnection allGood sampleConfig staleSession))
  = Some 1%nat
  /\ connected (snd (ensureSqlConnection allGood sampleConfig staleSession)) 1 = true
  /\ connected (snd (ensureSqlConnection allGood sampleConfig staleSession)) 0 = false.
Proof.
  destruct (ensureSqlConnection_refresh_success allGood sampleConfig staleSession
              eq_refl eq_refl) as (Hstored & _ & Hnew & Hold & _).
  split; [exact Hstored |]. split; [exact Hnew |].
  apply Hold; [reflexivity | eexists; reflexivity].
Defined.

Lemma refresh_success_connected (env : Env) (config : Config) (w : World) :
  sessionUsable w (nowAtCheck env) = false ->
  fst (ensureSqlConnection env config w) = Returned tt ->
  exists pool,
    globalSqlPool (snd (ensureSqlConnection env config w)) = Some pool
    /\ connected (snd (ensureSqlConnection env config w)) pool = true.
Proof.
  intros Huse Hok.
  destruct (refresh_success_pools env config w Huse Hok) as [Hglobal Hpools].
  exists (length (pools w)). split; [exact Hglobal |].
  apply connected_lookup. rewrite Hpools.
  assert (Hlen : length match poolToClose w with
                        | Some pool => <[pool := false]> (pools w)
                        | None => pools w
                        end = length (pools w))
    by (destruct (poolToClose w); [apply length_insert | reflexivity]).
  rewrite lookup_app_r by lia. rewrite Hlen, Nat.sub_diag. reflexivity.
Qed.

(** X6.  A call that follows a successful refresh reuses the session
    without any request, provided the token received was not empty and
    the call comes more than two minutes before the expiry just stored:
    the provider's timestamp when it gave one, and otherwise 30 minutes
    after the refresh, so that a call within 28 minutes of it is a
    no-op. *)
Theorem ensureSqlConnection_idempotent
    (env next : Env) (config : Config) (w : World) (accessToken : AccessToken) :
  sessionUsable w (nowAtCheck env) = false ->
  fst (ensureSqlConnection env config w) = Returned tt ->
  tokenReply env = inr (Some accessToken) ->
  token accessToken <> "" ->
  timeValue (nowAtCheck next + 2 * 60 * 1000) ->
  let w' := snd (ensureSqlConnection env config w) in
  (forall timestamp,
     expiresOnTimestamp accessToken = Some timestamp ->
     timestamp <> 0%Z -> timeValue timestamp ->
     (nowAtCheck next + 2 * 60 * 1000 < timestamp)%Z ->
     ensureSqlConnection next config w' = (Returned tt, w'))
  /\ (expiresOnTimestamp accessToken = None ->
      timeValue (nowAtToken env + 30 * 60 * 1000) ->
      (nowAtCheck next < nowAtToken env + 28 * 60 * 1000)%Z ->
      ensureSqlConnection next config w' = (Returned tt, w')).
Proof.
  intros Huse Hok Hreply Htoken Hnext w'.
  destruct (refresh_success_connected env config w Huse Hok) as (pool & Hpool & Hconn).
  destruct (ensureSqlConnection_refresh_stores env config w _ Huse Hreply)
    as [Hstored Hexpiry].
  fold w' in Hpool, Hconn, Hstored, Hexpiry.
  rewrite result_expiresOn_cases in Hexpiry. cbn in Hstored, Hexpiry.
  assert (Htruthy : truthyString (globalAccessToken w') = true).
  { rewrite Hstored. cbn. destruct (token accessToken); [congruence | reflexivity]. }
  split.
  - intros timestamp Hts Hnz Hvalid Hlater.
    apply ensureSqlConnection_usable, sessionUsable_spec; [exact Hnext |].
    exists pool, timestamp. repeat split; try assumption.
    rewrite Hexpiry, Hts. destruct (Z.eqb_spec timestamp 0); [congruence |].
    rewrite newDate_timeValue by exact Hvalid. reflexivity.
  - intros Hts Hvalid Hlater.
    apply ensureSqlConnection_usable, sessionUsable_spec; [exact Hnext |].
    exists pool, (nowAtToken env + 1800000)%Z. repeat split; try assumption; [| lia].
    rewrite Hexpiry, Hts. rewrite newDate_timeValue; [reflexivity |].
    replace (nowAtToken env + 1800000)%Z with (nowAtToken env + 30 * 60 * 1000)%Z by lia.
    exact Hvalid.
Qed.

Lemma ensureSqlConnection_idempotent_witness :
  ensureSqlConnection soonAfter sampleConfig
    (snd (ensureSqlConnection allGood sampleConfig staleSession))
  = (Returned tt, snd (ensureSqlConnection allGood sampleConfig staleSession)).
Proof.
  refine (proj1 (ensureSqlConnection_idempotent allGood soonAfter sampleConfig
                   staleSession
                   {| token := "new-token";
                      expiresOnTimestamp := Some (sampleNow + 3600000)%Z |}
                   eq_refl eq_refl eq_refl _ _)
            (sampleNow + 3600000)%Z eq_refl _ _ eq_refl).
  - discriminate.
  - unfold timeValue; vm_compute; split; discriminate.
  - discriminate.
  - unfold timeValue; vm_compute; split; discriminate.
Defined.

(** X7.  When the provider answers with no token object or with an
    empty token, the session a refresh leaves is never reused, whether
    the connect succeeded or not: every later call asks for a token
    again. *)
Theorem ensureSqlConnection_empty_token
    (env next : Env) (config : Config) (w : World)
    (accessToken : option AccessToken) :
  sessionUsable w (nowAtCheck env) = false ->
  tokenReply env = inr accessToken ->
  token <$> accessToken = None \/ token <$> accessToken = Some "" ->
  let w' := snd (ensureSqlConnection env config w) in
  (forall now, sessionUsable w' now = false)
  /\ exists rest,
       requests (snd (ensureSqlConnection next config w'))
       = requests w' ++ EvGetToken (credentialOf config) tokenScope :: rest.
Proof.
  intros Huse Hreply Hempty w'.
  destruct (ensureSqlConnection_refresh_stores env config w _ Huse Hreply)
    as [Hstored _].
  fold w' in Hstored. cbn in Hstored.
  assert (Hnever : forall now, sessionUsable w' now = false).
  { intros now. unfold sessionUsable. destruct (globalSqlPool w'); [| reflexivity].
    rewrite Hstored. destruct Hempty as [-> | ->]; cbn;
      rewrite andb_false_r; reflexivity. }
  split; [exact Hnever |]. apply refresh_requests_head, Hnever.
Qed.

Lemma ensureSqlConnection_empty_token_witness :
  fst (ensureSqlConnection nullToken sampleConfig staleSession) = Returned tt
  /\ sessionUsable (snd (ensureSqlConnection nullToken sampleConfig staleSession))
       (sampleNow + 1000) = false.
Proof.
  split; [reflexivity |].
  exact (proj1 (ensureSqlConnection_empty_token nullToken allGood sampleConfig
                  staleSession None eq_refl eq_refl (or_introl eq_refl))
           (sampleNow + 1000)%Z).
Defined.

(** ** What a call does to the pools *)

Lemma ensureSqlConnection_pools_shape (env : Env) (config : Config) (w : World) :
  exists base extra,
    pools (snd (ensureSqlConnection env config w)) = base ++ extra
    /\ (base = pools w
        \/ exists pool, poolToClose w = Some pool /\ base = <[pool := false]> (pools w))
    /\ (extra = [] \/ extra = [true]).
Proof.
  destruct (sessionUsable w (nowAtCheck env)) eqn:Huse.
  { rewrite (ensureSqlConnection_usable env config w Huse).
    exists (pools w), []. rewrite app_nil_r. auto. }
  revert Huse. destruct w as [gp gt ge ps rq], env as [n1 tr n2 cr kr].
  cbn [nowAtCheck]. intros Huse. ensure_cases. rewrite Huse.
  destruct tr as [e | accessToken]; run_M.
  { exists ps, []. rewrite app_nil_r. auto. }
  destruct gp as [pool |]; [destruct (ps !! pool) as [[] |] |];
    destruct cr, kr; run_M;
    first [ exists ps, []; rewrite app_nil_r; split; [reflexivity | auto]
          | exists ps, [true]; split; [reflexivity | auto]
          | exists (<[pool := false]> ps), []; rewrite app_nil_r;
            split; [reflexivity | split; [right; exists pool; auto | auto]]
          | exists (<[pool := false]> ps), [true];
            split; [reflexivity | split; [right; exists pool; auto | auto]] ].
Qed.

(** X8.  Whatever happens during a call, at most one pool is created;
    no pool that existed before the call goes from disconnected to
    connected; and the only pool whose state the call can change is the
    one stored in [globalSqlPool] when the call started. *)
Theorem ensureSqlConnection_touches_stored_pool_only
    (env : Env) (config : Config) (w : World) :
  let w' := snd (ensureSqlConnection env config w) in
  (length (pools w) <= length (pools w') <= length (pools w) + 1)%nat
  /\ forall pool c,
       pools w !! pool = Some c ->
       exists c',
         pools w' !! pool = Some c'
         /\ (c' = true -> c = true)
         /\ (c' <> c -> globalSqlPool w = Some pool).
Proof.
  cbv zeta.
  destruct (ensureSqlConnection_pools_shape env config w)
    as (base & extra & Hpools & Hbase & Hextra).
  assert (Hlen : length base = length (pools w)).
  { destruct Hbase as [-> | (p & _ & ->)]; [reflexivity | apply length_insert]. }
  split.
  - rewrite Hpools, length_app, Hlen.
    destruct Hextra as [-> | ->]; cbn [length]; lia.
  - intros pool c Hc. pose proof (lookup_lt_Some _ _ _ Hc) as Hlt.
    rewrite Hpools, lookup_app_l by lia.
    destruct Hbase as [-> | (p & Hclose & ->)].
    + exists c. split; [exact Hc |]. split; [tauto | congruence].
    + apply poolToClose_Some in Hclose as [Hstored _].
      destruct (decide (p = pool)) as [-> | Hne].
      * exists false. rewrite list_lookup_insert_eq by exact Hlt.
        split; [reflexivity |]. split; [discriminate | intros _; exact Hstored].
      * exists c. rewrite list_lookup_insert_ne by exact Hne.
        split; [exact Hc |]. split; [tauto | congruence].
Qed.

Lemma ensureSqlConnection_touches_stored_pool_only_witness :
  exists c',
    pools (snd (ensureSqlConnection allGood sampleConfig staleSession)) !! 0%nat
    = Some c'
    /\ (c' = true -> true = true)
    /\ (c' <> true -> globalSqlPool staleSession = Some 0%nat).
Proof.
  exact (proj2 (ensureSqlConnection_touches_stored_pool_only allGood sampleConfig
                  staleSession) 0%nat true eq_refl).
Defined.

(** ** Any number of calls, one after the other *)

Lemma ensureSqlConnection_onlyGlobal (env : Env) (config : Config) (w : World) :
  onlyGlobal w -> onlyGlobal (snd (ensureSqlConnection env config w)).
Proof.
  intros Hw.
  pose proof (trace_settled env config 5 AtEntry w Hw) as Htrace.
  fold (callTrace env config w) in Htrace.
  pose proof (callTrace_ensureSqlConnection env config w) as Hlast.
  apply last_Some in Hlast as [before Hlast]. rewrite Hlast in Htrace.
  rewrite Forall_app, Forall_singleton in Htrace. exact (proj2 Htrace).
Qed.

(** X9.  Calls made one after the other, however many and however the
    outside answers each, keep the session invariant: after all of them
    no pool other than the stored one is connected, so at most one pool
    is connected; and no more pools have been created than calls were
    made. *)
Theorem calls_keep_one_pool (envs : list Env) (config : Config) (w : World) :
  onlyGlobal w ->
  onlyGlobal (calls envs config w)
  /\ (connectedCount (pools (calls envs config w)) <= 1)%nat
  /\ (length (pools (calls envs config w)) <= length (pools w) + length envs)%nat.
Proof.
  revert w. induction envs as [| env envs IH]; intros w Hw; cbn [calls length].
  - split; [exact Hw |]. split; [exact (onlyGlobal_count w Hw) | lia].
  - destruct (IH _ (ensureSqlConnection_onlyGlobal env config w Hw))
      as (Hend & Hcount & Hlen).
    split; [exact Hend |]. split; [exact Hcount |].
    destruct (ensureSqlConnection_pools_shape env config w)
      as (base & extra & Hpools & Hbase & Hextra).
    rewrite Hpools, length_app in Hlen.
    assert (length base = length (pools w))
      by (destruct Hbase as [-> | (p & _ & ->)]; [reflexivity | apply length_insert]).
    destruct Hextra as [-> | ->]; cbn [length] in Hlen; lia.
Qed.

Lemma calls_keep_one_pool_witness :
  (connectedCount
     (pools (calls [allGood; connectFails; tokenFails; closeFails; allGood]
               sampleConfig staleSession)) <= 1)%nat.
Proof.
  exact (proj1 (proj2 (calls_keep_one_pool
                         [allGood; connectFails; tokenFails; closeFails; allGood]
                         sampleConfig staleSession (onlyGlobal_sessionUntil _)))).
Defined.

(** ** Two calls in flight, resumed in any order *)






(** * Further properties of the registration *)

Lemma exposedNames_tools (t : Toolbox) (config : Config) :
  exposedNames t config = name <$> tools t config.
Proof.
  unfold exposedNames, registry. rewrite <- list_fmap_compose. reflexivity.
Qed.

(** X11.  In full-access mode the server exposes the names of all eight
    tools and nothing else; every name exposed in read-only mode is also
    exposed in full-access mode; and the five write tools are exposed in
    full-access mode. *)
Theorem fullAccess_exposes_all (t : Toolbox) (full readonly : Config) :
  readOnly full = false ->
  readOnly readonly = true ->
  length (exposedNames t full) = 8%nat
  /\ (forall n, n ∈ exposedNames t full <-> n ∈ name <$> allTools t)
  /\ (forall n, n ∈ exposedNames t readonly -> n ∈ exposedNames t full)
  /\ (forall tool, tool ∈ writeTools t -> name tool ∈ exposedNames t full).
Proof.
  intros Hfull Hro. rewrite !exposedNames_tools.
  unfold tools, allTools, writeTools. rewrite Hfull, Hro.
  cbn [fmap list_fmap length]. split; [reflexivity |].
  split; [| split].
  - intros n. rewrite !elem_of_cons, !elem_of_nil. tauto.
  - intros n. rewrite !elem_of_cons, !elem_of_nil. tauto.
  - intros tool. rewrite !elem_of_cons, !elem_of_nil.
    intros [-> | [-> | [-> | [-> | [-> | []]]]]]; tauto.
Qed.

Lemma fullAccess_exposes_all_witness :
  "drop_table" ∈ exposedNames sampleTools fullAccessConfig
  /\ "list_tables" ∈ exposedNames sampleTools fullAccessConfig.
Proof.
  destruct (fullAccess_exposes_all sampleTools fullAccessConfig sampleConfig
              eq_refl eq_refl) as (_ & _ & Hsub & Hwrite).
  split.
  - apply (Hwrite (dropTableTool sampleTools)).
    unfold writeTools. rewrite !elem_of_cons. do 4 right. left. reflexivity.
  - apply Hsub. rewrite exposedNames_tools. cbn. left.
Defined.

(** * Further properties of the registered schema *)

(** X13.  The schema the [forEach] builds for a tool is its declared
    properties filtered and converted in one pass: every string or
    object property converted, every other property dropped; so it has
    no more entries than the tool declares properties, and it is empty
    for a tool that declares none. *)
Theorem zodSchemaOf_omap (tool : Tool) :
  zodSchemaOf tool = omap carried (default ∅ (inputSchema_properties tool))
  /\ size (zodSchemaOf tool) <= size (default ∅ (inputSchema_properties tool))
  /\ (inputSchema_properties tool = None \/ inputSchema_properties tool = Some ∅ ->
      zodSchemaOf tool = ∅).
Proof.
  assert (Heq : zodSchemaOf tool
                = omap carried (default ∅ (inputSchema_properties tool))).
  { apply map_eq. intros key. rewrite zodSchemaOf_lookup, lookup_omap.
    destruct (inputSchema_properties tool); cbn; [reflexivity |].
    rewrite lookup_empty. reflexivity. }
  split; [exact Heq |]. split.
  - rewrite Heq.
    rewrite <- (size_dom (D := gset string) (omap carried _)).
    rewrite <- (size_dom (D := gset string) (default ∅ (inputSchema_properties tool))).
    apply subseteq_size, dom_omap_subseteq.
  - intros [Hnone | Hempty]; rewrite Heq; [rewrite Hnone | rewrite Hempty]; cbn;
      apply omap_empty.
Qed.

Lemma zodSchemaOf_omap_witness :
  zodSchemaOf (listTableTool sampleTools) = ∅.
Proof.
  apply (proj2 (proj2 (zodSchemaOf_omap (listTableTool sampleTools)))).
  left. reflexivity.
Defined.

(** X14.  The schema does not depend on the order in which the
    properties are visited: folding [addProperty] over the entries in
    any order gives the schema of the tool. *)
Theorem zodSchema_order_independent
    (tool : Tool) (properties : gmap string Property)
    (entries : list (string * Property)) :
  inputSchema_properties tool = Some properties ->
  entries ≡ₚ Object_entries properties ->
  foldl addProperty ∅ entries = zodSchemaOf tool.
Proof.
  intros Hprops Hperm. unfold Object_entries in Hperm.
  assert (Hdistinct : NoDup entries.*1).
  { rewrite Hperm. apply NoDup_fst_map_to_list. }
  apply map_eq. intros key.
  rewrite foldl_addProperty_lookup by exact Hdistinct.
  rewrite zodSchemaOf_lookup, Hprops. cbn.
  rewrite (list_to_map_proper _ _ Hdistinct Hperm), list_to_map_to_list, lookup_empty.
  destruct (properties !! key ≫= carried); reflexivity.
Qed.

Lemma zodSchema_order_independent_witness :
  foldl addProperty ∅ (reverse (Object_entries sampleProperties))
  = zodSchemaOf (readDataTool sampleTools).
Proof.
  apply (zodSchema_order_independent (readDataTool sampleTools) sampleProperties).
  - reflexivity.
  - apply reverse_Permutation.
Defined.

(** * Properties of the configuration schema *)

(** X15.  A configuration that gives only the server and the database
    runs with the defaults: full access, so that all eight tools, the
    write tools included, are registered; the interactive browser
    credential with its redirect to localhost; certificates not trusted;
    and a connect timeout of 30 seconds, passed to the driver as 30000
    milliseconds. *)
Theorem configSchema_defaults (server database : string) (t : Toolbox)
    (accessToken : option AccessToken) (now : Z) :
  exists config,
    configSchema (minimal server database) = Some config
    /\ serverName config = server
    /\ databaseName config = database
    /\ tools t config
       = [insertDataTool t; readDataTool t; describeTableTool t; updateDataTool t;
          createTableTool t; createIndexTool t; dropTableTool t; listTableTool t]
    /\ (forall tool, tool ∈ writeTools t -> name tool ∈ exposedNames t config)
    /\ credentialOf config = InteractiveBrowserCredential "http://localhost"
    /\ options_trustServerCertificate
         (result_config (sqlConfigOf config accessToken now)) = false
    /\ connectionTimeoutMs (result_config (sqlConfigOf config accessToken now))
       = Finite 30000.
Proof.
  eexists. split; [reflexivity |].
  do 3 (split; [reflexivity |]). split; [| repeat split].
  intros tool. rewrite exposedNames_tools. unfold writeTools, tools.
  cbn -[elem_of].
  rewrite !elem_of_cons, !elem_of_nil.
  intros [-> | [-> | [-> | [-> | [-> | []]]]]]; tauto.
Qed.

Lemma configSchema_defaults_witness :
  exists config,
    configSchema (minimal "my-server.database.windows.net" "orders") = Some config
    /\ "drop_table" ∈ exposedNames sampleTools config.
Proof.
  destruct (configSchema_defaults "my-server.database.windows.net" "orders"
              sampleTools None sampleNow)
    as (config & Hparse & _ & _ & _ & Hwrite & _).
  exists config. split; [exact Hparse |].
  apply (Hwrite (dropTableTool sampleTools)).
  unfold writeTools. rewrite !elem_of_cons. do 4 right. left. reflexivity.
Defined.

(** * Further properties of the tool handler *)

(** X16.  On a session that is usable the handler sends no request to
    the credential provider or to the driver and leaves the session as
    it is: it returns the serialized result of the tool without an
    error flag, or, when the tool throws or its result cannot be
    serialized, the failure response for what was thrown. *)
Theorem handler_on_usable_session {RunValue : Type}
    (JSON_stringify : RunValue -> Thrown + string)
    (JSON_stringify_literal : list (string * (bool + string)) -> string)
    (env : HandlerEnv) (config : Config) (w : World) :
  sessionUsable w (nowAtCheck (connection env)) = true ->
  handler JSON_stringify JSON_stringify_literal env config w
  = (Returned
       match runReply env with
       | inl e => failureResponse JSON_stringify_literal e
       | inr result =>
           match JSON_stringify result with
           | inl e => failureResponse JSON_stringify_literal e
           | inr text =>
               {| content_type := "text"; content_text := text; isError := None |}
           end
       end, w).
Proof.
  intros Huse.
  unfold handler, tryCatch, run, stringify, mbind, M_bind, mret, M_ret, throw.
  rewrite (ensureSqlConnection_usable _ config w Huse).
  destruct (runReply env) as [e | result]; [reflexivity |].
  destruct (JSON_stringify result); reflexivity.
Qed.

Lemma handler_on_usable_session_witness :
  handler (fun result : string => inr result) (fun _ => "{}")
    {| connection := allGood; runReply := inr "[]" |} sampleConfig liveSession
  = (Returned {| content_type := "text"; content_text := "[]"; isError := None |},
     liveSession).
Proof.
  exact (handler_on_usable_session (fun result : string => inr result) (fun _ => "{}")
           {| connection := allGood; runReply := inr "[]" |} sampleConfig liveSession
           eq_refl).
Defined.
